(** * Versioned document store: [file_manager.py]

    A shallow embedding of [FileManager] (one versioned text file, patched
    by positional replace operations), of its single-region diff
    [calculate_diff], of [FileManagerPool] (the registry that hands out
    one manager object per key) and of the two content handlers of
    [app.py], together with the properties the specification states about
    them.

    Conventions.
    - A Python [str] is the list of its code points; a Python [int] is a [Z].
    - A change operation is the dict the web layer decodes from JSON; each of
      the four keys the code reads may be absent.  Values are typed as the
      specification's data model types them ([position], [length] integers,
      [type], [content] strings).
    - The file system is POSIX: a finite map from resolved paths to files
      and a set of directories.  A file holds the code points that were
      written to it; bytes that are not UTF-8 show as a code point UTF-8
      cannot encode.  [write_text] opens the file, which empties it, and
      then encodes; [read_text] decodes and translates line ends.  What
      the operating system decides (what access the process has to a
      path, what [mkdir] does) is a field of the world.  Access to a path
      is none, reading only, or reading and writing; [print] and a device
      that fails in the middle of a write are left out.
    - Objects live in a heap indexed by references, so that two handles to
      one [FileManager] observe each other's mutations. *)

From Stdlib Require Import ZArith Lia Ascii.
From stdpp Require Import gmap strings list fin_maps sorting.
From Equations Require Import Equations.

Local Open Scope Z_scope.

(** ** Python strings and slices *)

Module Py.

(** A character is a Unicode code point. *)
Definition char : Type := N.
Definition text : Type := list char.

(** The text of an ASCII literal. *)
Definition str (s : string) : text :=
  Ascii.N_of_ascii <$> String.list_ascii_of_string s.

Section Sequences.
Context {A : Type}.

(** [len(s)] *)
Definition len (s : list A) : Z := Z.of_nat (List.length s).

(** Truth value of a sequence: non-empty. *)
Definition truthy (s : list A) : bool :=
  match s with [] => false | _ :: _ => true end.

(** Slice bounds are clamped the way CPython adjusts them for a step of
    one: a negative bound counts from the end and stops at 0, a
    non-negative one stops at the length. *)
Definition adjust (n i : Z) : Z :=
  if i <? 0 then Z.max 0 (i + n) else Z.min i n.

(** [s[lo:hi]] *)
Definition slice (s : list A) (lo hi : Z) : list A :=
  let l := adjust (len s) lo in
  let h := adjust (len s) hi in
  take (Z.to_nat (h - l)) (drop (Z.to_nat l) s).

(** [s[:hi]] *)
Definition slice_to (s : list A) (hi : Z) : list A :=
  take (Z.to_nat (adjust (len s) hi)) s.

(** [s[lo:]] *)
Definition slice_from (s : list A) (lo : Z) : list A :=
  drop (Z.to_nat (adjust (len s) lo)) s.

(** [s[i]]; [None] stands for [IndexError]. *)
Definition getitem (s : list A) (i : Z) : option A :=
  let j := if i <? 0 then i + len s else i in
  if j <? 0 then None else s !! Z.to_nat j.
End Sequences.

End Py.
Import Py.

(** ** Change operations *)

(** The dict of one change.  [None] is an absent key. *)
Record Change := mkChange {
  ch_type     : option string;
  ch_position : option Z;
  ch_content  : option text;
  ch_length   : option Z
}.

#[global] Instance Change_eq_dec : EqDecision Change.
Proof. solve_decision. Defined.

(** The dict literal [{'type': 'replace', 'position': p, 'content': c,
    'length': n}] that [calculate_diff] builds. *)
Definition replace_op (p : Z) (c : text) (n : Z) : Change :=
  {| ch_type := Some "replace"%string; ch_position := Some p;
     ch_content := Some c; ch_length := Some n |}.

(** ** [FileManager.calculate_diff] *)

(** The loop
    [while prefix_len < len(old) and prefix_len < len(new)
           and old[prefix_len] == new[prefix_len]: prefix_len += 1]. *)
Equations? prefix_loop (old new : text) (prefix_len : Z) : Z
  by wf (Z.to_nat (len old - prefix_len)) lt :=
  prefix_loop old new prefix_len
    with decide (prefix_len < len old ∧ prefix_len < len new ∧
                 getitem old prefix_len = getitem new prefix_len) => {
    | left _ := prefix_loop old new (prefix_len + 1);
    | right _ := prefix_len }.
Proof. lia. Qed.

(** The loop
    [while suffix_len < max_suffix
           and old[len(old) - 1 - suffix_len] == new[len(new) - 1 - suffix_len]:
       suffix_len += 1]. *)
Equations? suffix_loop (old new : text) (max_suffix suffix_len : Z) : Z
  by wf (Z.to_nat (max_suffix - suffix_len)) lt :=
  suffix_loop old new max_suffix suffix_len
    with decide (suffix_len < max_suffix ∧
                 getitem old (len old - 1 - suffix_len) =
                 getitem new (len new - 1 - suffix_len)) => {
    | left _ := suffix_loop old new max_suffix (suffix_len + 1);
    | right _ := suffix_len }.
Proof. lia. Qed.

Definition calculate_diff (old_content new_content : text) : list Change :=
  if negb (truthy old_content) && truthy new_content then
    [ replace_op 0 new_content 0 ]
  else if truthy old_content && negb (truthy new_content) then
    [ replace_op 0 [] (len old_content) ]
  else
    let prefix_len := prefix_loop old_content new_content 0 in
    let max_suffix :=
      Z.min (len old_content - prefix_len) (len new_content - prefix_len) in
    let suffix_len := suffix_loop old_content new_content max_suffix 0 in
    let old_middle :=
      slice old_content prefix_len (len old_content - suffix_len) in
    let new_middle :=
      slice new_content prefix_len (len new_content - suffix_len) in
    if bool_decide (old_middle ≠ new_middle) then
      [ replace_op prefix_len new_middle (len old_middle) ]
    else [].

(** ** Exceptions and control flow *)

Inductive exn :=
| KeyError (key : string)      (* a dict lookup [d[key]] on an absent key *)
| OSError (path : string)      (* a failed file system call on [path] *)
| UnicodeError.                (* text that cannot be encoded or decoded *)

(** [str(e)], the message [apply_changes] hands back from its handler.
    Only a [KeyError] gets there: [get_content] and [update_full_content]
    handle their own exceptions.  The other two messages are abridged. *)
Definition str_exn (e : exn) : string :=
  match e with
  | KeyError key => "'" +:+ key +:+ "'"
  | OSError path => "[Errno 13] Permission denied: '" +:+ path +:+ "'"
  | UnicodeError => "'utf-8' codec can't encode characters"
  end.

(** One iteration of a loop body: fall through to the next iteration with
    the updated local, leave the function with a [return], or raise. *)
Inductive flow (S R : Type) :=
| Continue (s : S)
| Return (r : R)
| Raise (e : exn).
Arguments Continue {S R} s.
Arguments Return {S R} r.
Arguments Raise {S R} e.

(** [for x in xs: body], threading the local [s]. *)
Fixpoint for_each {X S R} (body : S → X → flow S R) (xs : list X) (s : S)
  : flow S R :=
  match xs with
  | [] => Continue s
  | x :: rest =>
      match body s x with
      | Continue s' => for_each body rest s'
      | Return r => Return r
      | Raise e => Raise e
      end
  end.

(** ** The patch loop of [FileManager.apply_changes] *)

(** The body of [for change in reversed(changes)], lines 105-120. *)
Definition apply_change (content : text) (change : Change)
  : flow text (bool * string) :=
  match ch_type change with
  | None => Raise (KeyError "type")
  | Some type =>
      if String.eqb type "replace" then
        match ch_position change with
        | None => Raise (KeyError "position")
        | Some position =>
            let length := default 0 (ch_length change) in
            match ch_content change with
            | None => Raise (KeyError "content")
            | Some new_content =>
                if (position <? 0) || (position >? len content) then
                  Return (false, "invalid_position"%string)
                else
                  Continue (slice_to content position ++
                            new_content ++
                            slice_from content (position + length))
            end
        end
      else Continue content
  end.

(** Lines 104-120: the whole loop over [reversed(changes)]. *)
Definition patch (content : text) (changes : list Change)
  : flow text (bool * string) :=
  for_each apply_change (reverse changes) content.

(** ** The file system *)

Record File := mkFile {
  f_text  : text;     (* the code points the file holds *)
  f_mtime : Z         (* [stat().st_mtime] *)
}.

(** What the process may do with the file at a path, or with the file it
    would create there. *)
Inductive Access := NoAccess | ReadOnly | ReadWrite.

Record World := mkWorld {
  files    : gmap string File;   (* existing files, by resolved path *)
  dirs     : gset string;        (* directories the program has made *)
  access   : string → Access;    (* the permissions the process has *)
  mkdir    : string → gset string * bool;
    (* [path.parent.mkdir(parents=True, exist_ok=True)] for a [path] at
       which no file exists: the directories it makes, and whether it
       returns rather than raises *)
  clock    : Z;                  (* the current time *)
  resolve  : string → string     (* [Path.resolve] *)
}.

(** Does [open(path, 'w')] succeed? *)
Definition writable (w : World) (path : string) : bool :=
  match access w path with ReadWrite => true | _ => false end.

(** Does [open(path, 'r')] succeed on a file that exists? *)
Definition readable (w : World) (path : string) : bool :=
  match access w path with NoAccess => false | _ => true end.

Definition set_files (w : World) (fs : gmap string File) : World :=
  {| files := fs; dirs := dirs w; access := access w; mkdir := mkdir w;
     clock := clock w; resolve := resolve w |}.

Definition set_dirs (w : World) (ds : gset string) : World :=
  {| files := files w; dirs := ds; access := access w; mkdir := mkdir w;
     clock := clock w; resolve := resolve w |}.

(** A call either returns or raises; a raise comes with the disk as the
    call left it. *)
Inductive result (A : Type) :=
| Ok (a : A)
| Raised (e : exn) (w : World).
Arguments Ok {A} a.
Arguments Raised {A} e w.

(** Code points UTF-8 encodes: all but the surrogates. *)
Definition encodable_char (c : char) : bool :=
  ((c <? 55296)%N || (57343 <? c)%N) && (c <=? 1114111)%N.

Definition encodable (s : text) : bool := forallb encodable_char s.

(** What reading in text mode makes of line ends: a carriage return, with
    the line feed that follows it if one does, becomes one line feed. *)
Fixpoint universal_newlines (s : text) : text :=
  match s with
  | [] => []
  | c :: rest =>
      if (c =? 13)%N then
        match rest with
        | c' :: rest' =>
            if (c' =? 10)%N then 10%N :: universal_newlines rest'
            else 10%N :: universal_newlines rest
        | [] => [10%N]
        end
      else c :: universal_newlines rest
  end.

(** [path.write_text(data, encoding="utf-8")]: open for writing, which
    creates the file or empties it, then encode and write.  Text that
    cannot be encoded leaves the file empty. *)
Definition write_text (path : string) (data : text) (w : World)
  : result World :=
  if writable w path then
    if encodable data then
      Ok (set_files w (<[path := mkFile data (clock w)]> (files w)))
    else
      Raised UnicodeError
        (set_files w (<[path := mkFile [] (clock w)]> (files w)))
  else Raised (OSError path) w.

(** [path.read_text(encoding="utf-8")]: open for reading, decode, and
    translate the line ends. *)
Definition read_text (path : string) (w : World) : result text :=
  match files w !! path with
  | Some f =>
      if readable w path then
        if encodable (f_text f) then Ok (universal_newlines (f_text f))
        else Raised UnicodeError w
      else Raised (OSError path) w
  | None => Raised (OSError path) w
  end.

(** [path.parent.mkdir(parents=True, exist_ok=True)].  Where the file
    exists its directory does, and nothing happens. *)
Definition mkdir_parent (path : string) (w : World) : result World :=
  match files w !! path with
  | Some _ => Ok w
  | None =>
      let w' := set_dirs w (dirs w ∪ (mkdir w path).1) in
      if (mkdir w path).2 then Ok w' else Raised (OSError path) w'
  end.

(** ** [FileManager] *)

Section FileManager.

(** [hashlib.md5(content.encode()).hexdigest()] *)
Variable md5_hexdigest : text → text.

Record FileManager := mkFileManager {
  file_path     : string;
  version       : Z;
  last_modified : option Z;
  content_hash  : option text
}.

Definition ensure_file_exists (self : FileManager) (w : World)
  : result World :=
  match mkdir_parent (file_path self) w with
  | Raised e w' => Raised e w'
  | Ok w' =>
      match files w' !! file_path self with
      | Some _ => Ok w'
      | None => write_text (file_path self) [] w'
      end
  end.

(** Never raises: when [stat] or the read fails, the handler fills in the
    current time and an empty hash. *)
Definition load_metadata (self : FileManager) (w : World) : FileManager :=
  match files w !! file_path self with
  | Some f =>
      match read_text (file_path self) w with
      | Ok content =>
          {| file_path := file_path self; version := version self;
             last_modified := Some (f_mtime f);
             content_hash := Some (md5_hexdigest content) |}
      | Raised _ _ =>
          {| file_path := file_path self; version := version self;
             last_modified := Some (clock w);
             content_hash := Some [] |}
      end
  | None =>
      {| file_path := file_path self; version := version self;
         last_modified := Some (clock w);
         content_hash := Some [] |}
  end.

(** [FileManager(Path(path))] *)
Definition FileManager_init (path : string) (w : World)
  : result (FileManager * World) :=
  let self := {| file_path := resolve w path; version := 0;
                 last_modified := None; content_hash := None |} in
  match ensure_file_exists self w with
  | Raised e w' => Raised e w'
  | Ok w' => Ok (load_metadata self w', w')
  end.

Definition increment_version (self : FileManager) : FileManager :=
  {| file_path := file_path self; version := version self + 1;
     last_modified := last_modified self;
     content_hash := content_hash self |}.

Definition validate_version (self : FileManager) (expected_version : Z)
  : bool :=
  bool_decide (version self = expected_version).

Definition get_content (self : FileManager) (w : World) : text :=
  match read_text (file_path self) w with
  | Ok content => content
  | Raised _ _ => []
  end.

Definition get_version (self : FileManager) : Z := version self.

Definition update_full_content (self : FileManager) (content : text)
  (w : World) : FileManager * World * bool :=
  match write_text (file_path self) content w with
  | Ok w' => (increment_version (load_metadata self w'), w', true)
  | Raised _ w' => (self, w', false)
  end.

Definition apply_changes (self : FileManager) (changes : list Change)
  (expected_version : option Z) (w : World)
  : FileManager * World * (bool * string) :=
  if match expected_version with
     | Some v => negb (validate_version self v)
     | None => false
     end
  then (self, w, (false, "version_mismatch"%string))
  else
    let content := get_content self w in
    match patch content changes with
    | Return r => (self, w, r)
    | Raise e => (self, w, (false, str_exn e))
    | Continue content' =>
        let '(self', w', success) := update_full_content self content' w in
        if success then (self', w', (true, "success"%string))
        else (self', w', (false, "write_failed"%string))
    end.

End FileManager.

(** The optimistic-lock gate of [apply_changes] lets the call through:
    no expected version was passed, or it is the current one. *)
Definition gate_open (self : FileManager) (expected_version : option Z)
  : Prop :=
  expected_version = None ∨ expected_version = Some (version self).

#[global] Instance gate_open_dec self expected_version :
  Decision (gate_open self expected_version).
Proof. unfold gate_open. apply _. Defined.

(** ** Objects and [FileManagerPool] *)

(** A reference to a [FileManager] object. *)
Definition ref : Type := positive.

(** Everything a request handler can reach: the objects and the disk. *)
Record Store := mkStore {
  heap  : gmap ref FileManager;
  world : World
}.

(** [handle.method(...)]: run a method on the object a handle refers to and
    write the mutated object back.  [None]: a dangling handle. *)
Definition call {R : Type} (handle : ref)
  (method : FileManager → World → FileManager * World * R) (st : Store)
  : option (Store * R) :=
  match heap st !! handle with
  | None => None
  | Some self =>
      let '(self', w', r) := method self (world st) in
      Some (mkStore (<[handle := self']> (heap st)) w', r)
  end.

(** Read-only methods through a handle. *)
Definition peek {R : Type} (handle : ref) (method : FileManager → World → R)
  (st : Store) : option R :=
  match heap st !! handle with
  | None => None
  | Some self => Some (method self (world st))
  end.

Section FileManagerPool.

Variable md5_hexdigest : text → text.

Record FileManagerPool := mkPool {
  managers : gmap string ref
}.

(** [FileManagerPool()] *)
Definition FileManagerPool_init : FileManagerPool := mkPool ∅.

(** When the constructor raises, nothing is stored, and the disk is as the
    constructor left it. *)
Definition get_manager (self : FileManagerPool) (file_path : string)
  (st : Store) : result (ref * FileManagerPool * Store) :=
  match managers self !! file_path with
  | Some handle => Ok (handle, self, st)
  | None =>
      match FileManager_init md5_hexdigest file_path (world st) with
      | Raised e w' => Raised e w'
      | Ok (manager, w') =>
          let handle := fresh (dom (heap st)) in
          Ok (handle,
              mkPool (<[file_path := handle]> (managers self)),
              mkStore (<[handle := manager]> (heap st)) w')
      end
  end.

Definition remove_manager (self : FileManagerPool) (file_path : string)
  : FileManagerPool :=
  mkPool (delete file_path (managers self)).

(** A request sequence: [get_manager] on each key in turn; a raising call
    leaves the pool and the objects as they were.  The answers come back
    in call order. *)
Fixpoint get_managers (self : FileManagerPool) (st : Store)
  (keys : list string)
  : list (result ref) * FileManagerPool * Store :=
  match keys with
  | [] => ([], self, st)
  | key :: rest =>
      match get_manager self key st with
      | Ok (handle, self', st') =>
          let '(answers, self'', st'') := get_managers self' st' rest in
          (Ok handle :: answers, self'', st'')
      | Raised e w' =>
          let '(answers, self'', st'') :=
            get_managers self (mkStore (heap st) w') rest in
          (Raised e w' :: answers, self'', st'')
      end
  end.

End FileManagerPool.

(** The pool and the heap agree: as many objects as registered keys, and
    no registered handle dangles. *)
Definition pool_wf (pool : FileManagerPool) (st : Store) : Prop :=
  size (managers pool) = size (heap st) ∧
  ∀ k h, managers pool !! k = Some h → is_Some (heap st !! h).

(** ** The specification's reading of a change list *)

(** A change operation of the data model: delete [op_length] characters at
    [op_position], insert [op_replacement] there. *)
Record Op := mkOp {
  op_position    : Z;
  op_length      : Z;
  op_replacement : text
}.

(** The dict a client submits for it. *)
Definition to_change (o : Op) : Change :=
  replace_op (op_position o) (op_replacement o) (op_length o).

(** All operations carried out at once, every position and length measured
    in the original text: copy the original from [cursor] up to the next
    operation, emit its replacement, skip what it deletes. *)
Fixpoint splice_original (original : text) (cursor : Z) (ops : list Op)
  : text :=
  match ops with
  | [] => slice_from original cursor
  | o :: rest =>
      slice original cursor (op_position o) ++ op_replacement o ++
      splice_original original (op_position o + op_length o) rest
  end.

(** Submitted in ascending position order, inside the text, no operation
    reaching into the next one. *)
Fixpoint ascending (original : text) (cursor : Z) (ops : list Op) : Prop :=
  match ops with
  | [] => True
  | o :: rest =>
      cursor ≤ op_position o ≤ len original ∧ 0 ≤ op_length o ∧
      ascending original (op_position o + op_length o) rest
  end.

(** Submitted in ascending position order: positions inside the text and
    never decreasing along the list, starting at or above [floor]. *)
Fixpoint in_position_order (original : text) (floor : Z) (ops : list Op)
  : Prop :=
  match ops with
  | [] => True
  | o :: rest =>
      floor ≤ op_position o ≤ len original ∧
      in_position_order original (op_position o) rest
  end.

(** [a] comes before [b] when taken by descending position. *)
Definition position_ge (a b : Op) : Prop := op_position b ≤ op_position a.

#[global] Instance position_ge_dec : RelDecision position_ge.
Proof. intros a b. unfold position_ge. apply _. Defined.

(** The order the specification prescribes: by descending position. *)
Definition by_descending_position (ops : list Op) : list Op :=
  merge_sort position_ge ops.

(** The patch loop as the specification words it: the operations taken in
    descending order of position, whatever order they were submitted in. *)
Definition patch_by_position (content : text) (ops : list Op)
  : flow text (bool * string) :=
  for_each apply_change (to_change <$> by_descending_position ops) content.

(** ** Small concrete stores *)

(** A stand-in digest for running the code on concrete inputs, and one
    that tells texts apart. *)
Definition no_digest : text → text := λ _, [].
Definition echo_digest : text → text := λ content, content.

(** An empty writable disk, paths already resolved. *)
Definition blank_disk : World :=
  {| files := ∅; dirs := ∅; access := λ _, ReadWrite;
     mkdir := λ _, (∅, true); clock := 1; resolve := λ p, p |}.

(** A disk holding one writable file written at time 1. *)
Definition written (path : string) (content : text) : World :=
  {| files := {[ path := mkFile content 1 ]}; dirs := ∅;
     access := λ _, ReadWrite; mkdir := λ _, (∅, true); clock := 1;
     resolve := λ p, p |}.

(** A disk mounted read-only. *)
Definition read_only (w : World) : World :=
  {| files := files w; dirs := dirs w; access := λ _, ReadOnly;
     mkdir := mkdir w; clock := clock w; resolve := resolve w |}.

(** A manager object for [path] at version [v], metadata loaded at time 1
    from a file with digest [[]]. *)
Definition manager_at (path : string) (v : Z) : FileManager :=
  {| file_path := path; version := v; last_modified := Some 1;
     content_hash := Some [] |}.

(** A pool that has handed out one manager, for the key ["alice.txt"], on
    a disk that was blank; the store before and after that manager's file
    is replaced by ["hi"]. *)
Definition alice_pool : FileManagerPool :=
  mkPool {[ "alice.txt"%string := 1%positive ]}.
Definition alice_before : Store :=
  mkStore {[ 1%positive := manager_at "alice.txt" 0 ]}
    (written "alice.txt" []).
Definition alice_after : Store :=
  mkStore {[ 1%positive := manager_at "alice.txt" 1 ]}
    (written "alice.txt" (str "hi")).

(** Two insertions submitted higher position first, and a replace and an
    insertion submitted in ascending order. *)
Definition out_of_order : list Op :=
  [ mkOp 4 0 (str "X"); mkOp 1 0 (str "Y") ].
Definition in_order : list Op :=
  [ mkOp 1 2 (str "Y"); mkOp 4 0 (str "X") ].

#[global] Instance ascending_dec original cursor ops :
  Decision (ascending original cursor ops).
Proof. revert cursor. induction ops; intros; simpl; apply _. Defined.

#[global] Instance in_position_order_dec original floor ops :
  Decision (in_position_order original floor ops).
Proof. revert floor. induction ops; intros; simpl; apply _. Defined.

(** ** Changes the loop acts on *)

(** A change has a type, and the type is ['replace']. *)
Definition is_replace (change : Change) : Prop :=
  ch_type change = Some "replace"%string.

#[global] Instance is_replace_dec change : Decision (is_replace change).
Proof. unfold is_replace. apply _. Defined.

(** ** [FileManager.get_file_info] *)

(** Bytes a code point takes in UTF-8 (a lone surrogate has no encoding;
    [write_text] refuses a text that holds one). *)
Definition utf8_size (c : char) : Z :=
  if (c <? 128)%N then 1
  else if (c <? 2048)%N then 2
  else if (c <? 65536)%N then 3
  else 4.

(** [stat().st_size]: the file's text, encoded. *)
Definition st_size (f : File) : Z :=
  foldr (λ c n, utf8_size c + n) 0 (f_text f).

(** The dict [get_file_info] returns; [fi_modified] is the time stamp that
    the code prints with [isoformat()]. *)
Record FileInfo := mkFileInfo {
  fi_path     : string;
  fi_size     : Z;
  fi_modified : option Z;
  fi_version  : Z;
  fi_hash     : option text
}.

(** Only [stat()] can raise; then the size is 0 and no time is given. *)
Definition get_file_info (self : FileManager) (w : World) : FileInfo :=
  match files w !! file_path self with
  | Some f =>
      {| fi_path := file_path self; fi_size := st_size f;
         fi_modified := last_modified self;
         fi_version := version self; fi_hash := content_hash self |}
  | None =>
      {| fi_path := file_path self; fi_size := 0;
         fi_modified := None;
         fi_version := version self; fi_hash := content_hash self |}
  end.

(** ** The request handlers of [app.py] *)

(** The handlers as they run once [require_auth] has let the request in and
    stored the user.  A request body is a JSON object whose fields have the
    types the handlers expect; a response is the [jsonify] call that builds
    it. *)
Module App.

Definition USER_FILES_DIR : string := "user_files".

(** [os.path.join(a, b)] for a first component that is neither empty nor
    ends in a slash: an absolute [b] replaces [a]. *)
Definition path_join (a b : string) : string :=
  if String.prefix "/" b then b else a +:+ "/" +:+ b.

Definition get_user_file_path (username : string) : string :=
  path_join USER_FILES_DIR (username +:+ ".txt").

(** The body of [POST /api/content].  [None] is an absent key (or, for
    [d_version], a null); [d_other] tells whether the object has any
    further key, a null ['version'] included. *)
Record UpdateData := mkUpdateData {
  d_content : option text;
  d_changes : option (list Change);
  d_version : option Z;
  d_other   : bool
}.

Definition has_key {A : Type} (field : option A) : bool :=
  match field with Some _ => true | None => false end.

(** Truth value of the dict: it has a key. *)
Definition data_truthy (data : UpdateData) : bool :=
  has_key (d_content data) || has_key (d_changes data) ||
  has_key (d_version data) || d_other data.

Inductive Response :=
| ContentOk (content : text) (version : Z) (file_info : FileInfo)
    (* 200: success, content, version, file_info *)
| HeadOk
    (* 200 with an empty body *)
| GetFailed
    (* 500 from the handler of [get_content] *)
| Saved (version : Z) (file_info : FileInfo)
    (* 200: success, version, file_info *)
| Conflict (current_version : Z) (current_content : text)
    (* 409: error_type version_mismatch, current_version, current_content *)
| InvalidData
    (* 400 *)
| SaveFailed
    (* 500: the save reported no success *)
| UpdateFailed.
    (* 500 from the handler of [update_content] *)

Definition status (r : Response) : Z :=
  match r with
  | ContentOk _ _ _ | HeadOk | Saved _ _ => 200
  | InvalidData => 400
  | Conflict _ _ => 409
  | GetFailed | SaveFailed | UpdateFailed => 500
  end.

Section Handlers.

Variable md5_hexdigest : text → text.

(** What both branches of [update_content] do with the outcome of the
    save. *)
Definition save_response (file_manager : ref) (success : bool)
  (st : Store) : Response :=
  if success then
    match peek file_manager
            (λ self w, Saved (get_version self) (get_file_info self w)) st
    with
    | Some r => r
    | None => UpdateFailed
    end
  else SaveFailed.

Definition conflict_response (file_manager : ref) (st : Store) : Response :=
  match peek file_manager
          (λ self w, Conflict (get_version self) (get_content self w)) st
  with
  | Some r => r
  | None => UpdateFailed
  end.

(** [update_content()], lines 307-364.  A handle the heap does not know
    cannot come out of [get_manager]; the model answers it as the handler
    answers any exception. *)
Definition update_content (username : string) (data : option UpdateData)
  (pool : FileManagerPool) (st : Store)
  : Response * FileManagerPool * Store :=
  match data with
  | None => (InvalidData, pool, st)
  | Some data =>
      if negb (data_truthy data) then (InvalidData, pool, st)
      else
        let content := default [] (d_content data) in
        let changes := default [] (d_changes data) in
        let expected_version := d_version data in
        let user_file := get_user_file_path username in
        match get_manager md5_hexdigest pool user_file st with
        | Raised _ w' => (UpdateFailed, pool, mkStore (heap st) w')
        | Ok (file_manager, pool, st) =>
            match
              peek file_manager
                (λ self _,
                   match expected_version with
                   | Some v => negb (validate_version self v)
                   | None => false
                   end) st
            with
            | None => (UpdateFailed, pool, st)
            | Some true => (conflict_response file_manager st, pool, st)
            | Some false =>
                if truthy changes then
                  match
                    call file_manager
                      (λ self w,
                         apply_changes md5_hexdigest self changes
                           expected_version w) st
                  with
                  | None => (UpdateFailed, pool, st)
                  | Some (st, (success, message)) =>
                      if String.eqb message "version_mismatch" then
                        (conflict_response file_manager st, pool, st)
                      else (save_response file_manager success st, pool, st)
                  end
                else
                  match
                    call file_manager
                      (λ self w,
                         update_full_content md5_hexdigest self content w) st
                  with
                  | None => (UpdateFailed, pool, st)
                  | Some (st, success) =>
                      (save_response file_manager success st, pool, st)
                  end
            end
        end
  end.

(** [get_content()], lines 277-304; [head] is [request.method == 'HEAD']. *)
Definition get_content (username : string) (head : bool)
  (pool : FileManagerPool) (st : Store)
  : Response * FileManagerPool * Store :=
  let user_file := get_user_file_path username in
  match get_manager md5_hexdigest pool user_file st with
  | Raised _ w' => (GetFailed, pool, mkStore (heap st) w')
  | Ok (file_manager, pool, st) =>
      if head then (HeadOk, pool, st)
      else
        match
          peek file_manager
            (λ self w,
               ContentOk (get_content self w) (get_version self)
                 (get_file_info self w)) st
        with
        | Some r => (r, pool, st)
        | None => (GetFailed, pool, st)
        end
  end.

End Handlers.

End App.

(** ** More invariants of the pool *)

(** No two keys share an object. *)
Definition pool_inj (pool : FileManagerPool) : Prop :=
  ∀ k1 k2 h,
    managers pool !! k1 = Some h → managers pool !! k2 = Some h → k1 = k2.

(** Every registered handle refers to an object. *)
Definition pool_live (pool : FileManagerPool) (st : Store) : Prop :=
  ∀ k h, managers pool !! k = Some h → is_Some (heap st !! h).

(** ** More concrete stores *)

(** The pool and the store once the user [alice] has a manager at version
    2 over a file that reads ["abc"]. *)
Definition alice_path : string := "user_files/alice.txt".
Definition users_pool : FileManagerPool :=
  mkPool {[ alice_path := 1%positive ]}.
Definition users_store : Store :=
  mkStore {[ 1%positive := manager_at alice_path 2 ]}
    (written alice_path (str "abc")).


(** A text with a Windows line end, ["a\r\nb"], the text it reads back
    as, and a text that ends in a lone surrogate. *)
Definition crlf_text : text := [97; 13; 10; 98]%N.
Definition lf_text : text := [97; 10; 98]%N.
Definition surrogate_text : text := [97; 55296]%N.

(** A blank disk on which making the directories of a path gets as far as
    ["data"] and then fails. *)
Definition half_made_disk : World :=
  {| files := ∅; dirs := ∅; access := λ _, ReadWrite;
     mkdir := λ _, ({[ "data"%string ]}, false); clock := 1;
     resolve := λ p, p |}.

(** The users' disk at time 5, holding [alice]'s file and the file of a
    second user. *)
Definition bob_path : string := "user_files/bob.txt".
Definition shared_disk (alice : File) : World :=
  {| files := {[ alice_path := alice; bob_path := mkFile (str "xyz") 1 ]};
     dirs := ∅; access := λ _, ReadWrite; mkdir := λ _, (∅, true);
     clock := 5; resolve := λ p, p |}.
Definition shared_store (alice : File) : Store :=
  mkStore {[ 1%positive := manager_at alice_path 2 ]} (shared_disk alice).

(** * Properties *)

(** ** Slices *)

Section SliceFacts.
Context {A : Type}.
Implicit Types s t : list A.

Lemma len_nonneg s : 0 ≤ len s.
Proof. unfold len. lia. Qed.

Lemma len_app s t : len (s ++ t) = len s + len t.
Proof. unfold len. rewrite length_app. lia. Qed.

Lemma truthy_false s : truthy s = false ↔ s = [].
Proof. destruct s; simpl; split; congruence. Qed.

Lemma adjust_nonneg n i : 0 ≤ i → adjust n i = Z.min i n.
Proof. unfold adjust. intros. destruct (Z.ltb_spec i 0); lia. Qed.

Lemma slice_to_take s i :
  0 ≤ i → slice_to s i = take (Z.to_nat i) s.
Proof.
  intros Hi. unfold slice_to. rewrite adjust_nonneg by done.
  destruct (Z.le_gt_cases i (len s)).
  - by rewrite Z.min_l.
  - rewrite Z.min_r by lia. unfold len in *.
    rewrite !take_ge; [done | lia | lia].
Qed.

Lemma slice_from_drop s i :
  0 ≤ i → slice_from s i = drop (Z.to_nat i) s.
Proof.
  intros Hi. unfold slice_from. rewrite adjust_nonneg by done.
  destruct (Z.le_gt_cases i (len s)).
  - by rewrite Z.min_l.
  - rewrite Z.min_r by lia. unfold len in *.
    rewrite !drop_ge; [done | lia | lia].
Qed.

Lemma slice_take_drop s lo hi :
  0 ≤ lo ≤ hi → hi ≤ len s →
  slice s lo hi = take (Z.to_nat (hi - lo)) (drop (Z.to_nat lo) s).
Proof.
  intros Hlo Hhi. unfold slice.
  rewrite !adjust_nonneg by lia. rewrite !Z.min_l by lia. done.
Qed.

Lemma len_slice s lo hi :
  0 ≤ lo ≤ hi → hi ≤ len s → len (slice s lo hi) = hi - lo.
Proof.
  intros Hlo Hhi. rewrite slice_take_drop by done.
  unfold len in *. rewrite length_take, length_drop. lia.
Qed.

(** A text is its first [p] characters, the middle, and its last [q]. *)
Lemma split_three s p q :
  0 ≤ p → 0 ≤ q → p + q ≤ len s →
  s = take (Z.to_nat p) s ++ slice s p (len s - q) ++
      drop (Z.to_nat (len s - q)) s.
Proof.
  intros Hp Hq Hpq. rewrite slice_take_drop by lia.
  rewrite <- (take_drop (Z.to_nat p) s) at 1. f_equal.
  rewrite <- (take_drop (Z.to_nat (len s - q - p)) (drop (Z.to_nat p) s)) at 1.
  f_equal. rewrite drop_drop. f_equal. lia.
Qed.

Lemma getitem_lookup s i :
  0 ≤ i → getitem s i = s !! Z.to_nat i.
Proof.
  intros Hi. unfold getitem.
  destruct (Z.ltb_spec i 0); [lia |].
  destruct (Z.ltb_spec i 0); [lia | done].
Qed.
End SliceFacts.

(** ** The two scans of [calculate_diff] *)

(** Both loops, unfolded once. *)
Lemma prefix_loop_step old new p :
  prefix_loop old new p =
  if decide (p < len old ∧ p < len new ∧ getitem old p = getitem new p)
  then prefix_loop old new (p + 1) else p.
Proof.
  rewrite prefix_loop_equation_1.
  destruct (decide _); reflexivity.
Qed.

Lemma suffix_loop_step old new m s :
  suffix_loop old new m s =
  if decide (s < m ∧
             getitem old (len old - 1 - s) = getitem new (len new - 1 - s))
  then suffix_loop old new m (s + 1) else s.
Proof.
  rewrite suffix_loop_equation_1.
  destruct (decide _); reflexivity.
Qed.

(** Loop invariant of the prefix scan: the first [prefix_len] characters of
    both texts agree. *)
Lemma prefix_loop_spec old new p0 :
  0 ≤ p0 → p0 ≤ len old → p0 ≤ len new →
  take (Z.to_nat p0) old = take (Z.to_nat p0) new →
  let p := prefix_loop old new p0 in
  p0 ≤ p ∧ p ≤ len old ∧ p ≤ len new ∧
  take (Z.to_nat p) old = take (Z.to_nat p) new.
Proof.
  remember (Z.to_nat (len old - p0)) as fuel eqn:Hfuel.
  revert p0 Hfuel.
  induction (lt_wf fuel) as [fuel _ IH].
  intros p0 -> H0 Ho Hn Hagree. simpl.
  rewrite prefix_loop_step.
  destruct (decide _) as [(Hlo & Hln & Hget) | _].
  - rewrite !getitem_lookup in Hget by done.
    destruct (lookup_lt_is_Some_2 old (Z.to_nat p0)) as [x Hx];
      [unfold len in *; lia |].
    assert (Hstep : take (Z.to_nat (p0 + 1)) old =
                    take (Z.to_nat (p0 + 1)) new).
    { replace (Z.to_nat (p0 + 1)) with (S (Z.to_nat p0)) by lia.
      rewrite (take_S_r old _ x) by done.
      rewrite (take_S_r new _ x) by congruence.
      by rewrite Hagree. }
    destruct (IH (Z.to_nat (len old - (p0 + 1))) ltac:(lia) (p0 + 1)
                eq_refl ltac:(lia) ltac:(lia) ltac:(lia) Hstep)
      as (? & ? & ? & ?).
    repeat split; (lia || done).
  - repeat split; (lia || done).
Qed.

(** Loop invariant of the suffix scan: the last [suffix_len] characters of
    both texts agree, and the scan never passes [max_suffix]. *)
Lemma suffix_loop_spec old new m s0 :
  0 ≤ s0 ≤ m → m ≤ len old → m ≤ len new →
  drop (Z.to_nat (len old - s0)) old = drop (Z.to_nat (len new - s0)) new →
  let s := suffix_loop old new m s0 in
  s0 ≤ s ≤ m ∧
  drop (Z.to_nat (len old - s)) old = drop (Z.to_nat (len new - s)) new.
Proof.
  remember (Z.to_nat (m - s0)) as fuel eqn:Hfuel.
  revert s0 Hfuel.
  induction (lt_wf fuel) as [fuel _ IH].
  intros s0 -> H0 Ho Hn Hagree. simpl.
  rewrite suffix_loop_step.
  destruct (decide _) as [(Hlt & Hget) | _].
  - rewrite !getitem_lookup in Hget by lia.
    destruct (lookup_lt_is_Some_2 old (Z.to_nat (len old - 1 - s0)))
      as [x Hx]; [unfold len in *; lia |].
    assert (Hstep : drop (Z.to_nat (len old - (s0 + 1))) old =
                    drop (Z.to_nat (len new - (s0 + 1))) new).
    { replace (len old - (s0 + 1)) with (len old - 1 - s0) by lia.
      replace (len new - (s0 + 1)) with (len new - 1 - s0) by lia.
      rewrite (drop_S old x) by done.
      rewrite (drop_S new x) by congruence.
      replace (S (Z.to_nat (len old - 1 - s0)))
        with (Z.to_nat (len old - s0)) by lia.
      replace (S (Z.to_nat (len new - 1 - s0)))
        with (Z.to_nat (len new - s0)) by lia.
      by rewrite Hagree. }
    destruct (IH (Z.to_nat (m - (s0 + 1))) ltac:(lia) (s0 + 1)
                eq_refl ltac:(lia) ltac:(lia) ltac:(lia) Hstep)
      as (? & ?).
    split; (lia || done).
  - split; (lia || done).
Qed.

(** ** The diff engine *)

(** What the general branch of [calculate_diff] knows once both scans are
    done: a common prefix of length [p], a common suffix of length [s], and
    the two never overlap. *)
Lemma scans_spec old new :
  let p := prefix_loop old new 0 in
  let s := suffix_loop old new (Z.min (len old - p) (len new - p)) 0 in
  (0 ≤ p ∧ 0 ≤ s ∧ p + s ≤ len old ∧ p + s ≤ len new) ∧
  take (Z.to_nat p) old = take (Z.to_nat p) new ∧
  drop (Z.to_nat (len old - s)) old = drop (Z.to_nat (len new - s)) new.
Proof.
  intros p s.
  destruct (prefix_loop_spec old new 0) as (Hp0 & Hpo & Hpn & Hpre);
    [lia | apply len_nonneg | apply len_nonneg | done |].
  fold p in Hp0, Hpo, Hpn, Hpre.
  destruct (suffix_loop_spec old new
              (Z.min (len old - p) (len new - p)) 0) as (Hs & Hsuf);
    [lia | lia | lia | |].
  { rewrite !Z.sub_0_r. unfold len. rewrite !Nat2Z.id.
    by rewrite !drop_all. }
  fold s in Hs, Hsuf.
  repeat split; (lia || done).
Qed.

(** Running the patch loop on a single well-positioned replace. *)
Lemma patch_singleton content p c n :
  0 ≤ p ≤ len content →
  patch content [replace_op p c n] =
  Continue (slice_to content p ++ c ++ slice_from content (p + n)).
Proof.
  intros Hp. unfold patch. simpl. unfold apply_change. simpl.
  destruct (Z.ltb_spec p 0); [lia |].
  destruct (Z.gtb_spec p (len content)); [lia |]. done.
Qed.

(** C6.  The degenerate cases return exactly one operation:
    [calculate_diff("", "hello")] is one insertion of ["hello"] at position
    0 with length 0, [calculate_diff("hello", "")] is one deletion at
    position 0 with length 5; in general an empty old text with a non-empty
    new text gives the single insertion of the whole new text at position 0
    with length 0, and a non-empty old text with an empty new text the
    single deletion of the whole old text. *)
Theorem calculate_diff_empty_cases :
  calculate_diff (str "") (str "hello") = [replace_op 0 (str "hello") 0] ∧
  calculate_diff (str "hello") (str "") = [replace_op 0 (str "") 5] ∧
  (∀ (c : char) (new : text),
     calculate_diff [] (c :: new) = [replace_op 0 (c :: new) 0]) ∧
  (∀ (c : char) (old : text),
     calculate_diff (c :: old) [] = [replace_op 0 [] (len (c :: old))]).
Proof. repeat split. Qed.

(** C7.  For every pair of texts the change list has at most one element,
    and the diff of a text against itself is empty. *)
Theorem calculate_diff_at_most_one (A B : text) :
  (length (calculate_diff A B) ≤ 1)%nat ∧ calculate_diff A A = [].
Proof.
  split.
  - unfold calculate_diff.
    repeat (case_match; simpl; try lia).
  - unfold calculate_diff.
    destruct A as [| a A]; simpl.
    + rewrite bool_decide_eq_false_2; [done | by intros []].
    + rewrite bool_decide_eq_false_2; [done | by intros []].
Qed.

(** ** The patch loop *)

Lemma for_each_app {X S R} (body : S → X → flow S R) xs ys s :
  for_each body (xs ++ ys) s =
  match for_each body xs s with
  | Continue s' => for_each body ys s'
  | Return r => Return r
  | Raise e => Raise e
  end.
Proof.
  revert s. induction xs as [| x xs IH]; intros s; simpl; [done |].
  destruct (body s x); [apply IH | done | done].
Qed.

Lemma patch_nil content : patch content [] = Continue content.
Proof. reflexivity. Qed.

(** A replace with all keys present, seen by the loop body. *)
Lemma apply_change_replace content p c n :
  apply_change content
    {| ch_type := Some "replace"%string; ch_position := Some p;
       ch_content := Some c; ch_length := n |} =
  if (p <? 0) || (p >? len content)
  then Return (false, "invalid_position"%string)
  else Continue (slice_to content p ++ c ++
                 slice_from content (p + default 0 n)).
Proof. reflexivity. Qed.

(** ** Reading and writing *)






Lemma writable_readable w path :
  writable w path = true → readable w path = true.
Proof. unfold writable, readable. by destruct (access w path). Qed.

(** The three ways a write ends. *)
Lemma write_text_cases path data w :
  writable w path = true ∧ encodable data = true ∧
    write_text path data w
    = Ok (set_files w (<[path := mkFile data (clock w)]> (files w))) ∨
  writable w path = true ∧ encodable data = false ∧
    write_text path data w
    = Raised UnicodeError
        (set_files w (<[path := mkFile [] (clock w)]> (files w))) ∨
  writable w path = false ∧ write_text path data w = Raised (OSError path) w.
Proof.
  unfold write_text.
  destruct (writable w path), (encodable data); naive_solver.
Qed.

(** Reading a file right after it was written. *)
Lemma read_text_written path data t w :
  writable w path = true → encodable data = true →
  read_text path (set_files w (<[path := mkFile data t]> (files w)))
  = Ok (universal_newlines data).
Proof.
  intros Hw%writable_readable Henc. unfold read_text. simpl.
  rewrite lookup_insert_eq. simpl.
  change (readable (set_files w _) path) with (readable w path).
  by rewrite Hw, Henc.
Qed.

Section Document.

Variable md5_hexdigest : text → text.

Lemma load_metadata_keeps self w :
  file_path (load_metadata md5_hexdigest self w) = file_path self ∧
  version (load_metadata md5_hexdigest self w) = version self.
Proof. unfold load_metadata. by repeat case_match. Qed.


Lemma apply_changes_gate_open self changes expected_version w :
  gate_open self expected_version →
  apply_changes md5_hexdigest self changes expected_version w =
  match patch (get_content self w) changes with
  | Return r => (self, w, r)
  | Raise e => (self, w, (false, str_exn e))
  | Continue content' =>
      let '(self', w', success) :=
        update_full_content md5_hexdigest self content' w in
      if success then (self', w', (true, "success"%string))
      else (self', w', (false, "write_failed"%string))
  end.
Proof.
  intros [-> | ->]; unfold apply_changes; [done |].
  unfold validate_version. by rewrite bool_decide_eq_true_2.
Qed.

Lemma update_full_content_version self content w self' w' ok :
  update_full_content md5_hexdigest self content w = (self', w', ok) →
  version self' = version self + (if ok then 1 else 0) ∧
  (ok = false → self' = self).
Proof.
  unfold update_full_content.
  destruct (write_text _ _ _) as [w1 | e w1]; intros [= <- <- <-].
  - split; [| done]. simpl.
    by destruct (load_metadata_keeps self w1) as [_ ->].
  - split; [simpl; lia | done].
Qed.

(** What a full replace leaves behind, in each of its three outcomes. *)
Lemma update_full_content_cases self content w :
  writable w (file_path self) = true ∧ encodable content = true ∧
    update_full_content md5_hexdigest self content w
    = ({| file_path := file_path self; version := version self + 1;
          last_modified := Some (clock w);
          content_hash :=
            Some (md5_hexdigest (universal_newlines content)) |},
       set_files w
         (<[file_path self := mkFile content (clock w)]> (files w)),
       true) ∨
  writable w (file_path self) = true ∧ encodable content = false ∧
    update_full_content md5_hexdigest self content w
    = (self,
       set_files w (<[file_path self := mkFile [] (clock w)]> (files w)),
       false) ∨
  writable w (file_path self) = false ∧
    update_full_content md5_hexdigest self content w = (self, w, false).
Proof.
  unfold update_full_content.
  destruct (write_text_cases (file_path self) content w)
    as [(Hw & Henc & ->) | [(Hw & Henc & ->) | (Hw & ->)]];
    [left | right; left | right; right]; repeat split; try done.
  unfold load_metadata. simpl.
  rewrite lookup_insert_eq, read_text_written by done. done.
Qed.

(** Every way [apply_changes] can answer [False] leaves the object as it
    was. *)
Lemma apply_changes_failure_keeps_object self changes ev w self' w' msg :
  apply_changes md5_hexdigest self changes ev w = (self', w', (false, msg)) →
  self' = self.
Proof.
  unfold apply_changes.
  destruct (match ev with Some v => _ | None => _ end);
    [by intros [= <- <-] |].
  destruct (patch _ _) as [content' | r | e];
    [| by intros [= <- <-] | by intros [= <- <-]].
  destruct (update_full_content md5_hexdigest self content' w)
    as [[self1 w1] ok] eqn:Hu.
  apply update_full_content_version in Hu as [_ Hu].
  destruct ok; [done |]. intros [= <- <- _]. by apply Hu.
Qed.

Lemma apply_changes_version self changes ev w self' w' ok msg :
  apply_changes md5_hexdigest self changes ev w = (self', w', (ok, msg)) →
  version self' = version self + (if ok then 1 else 0).
Proof.
  destruct ok.
  - unfold apply_changes.
    destruct (match ev with Some v => _ | None => _ end); [done |].
    destruct (patch _ _) as [content' | [ok r] | e] eqn:Heqf; [| | done].
    + destruct (update_full_content md5_hexdigest self content' w)
        as [[self1 w1] ok] eqn:Hu.
      apply update_full_content_version in Hu as [Hu _].
      destruct ok; [| done]. by intros [= <- <-].
    + (* the loop only ever returns a failure *)
      intros [= <- <- -> ->]. exfalso.
      revert Heqf. unfold patch. generalize (get_content self w).
      induction (reverse changes) as [| c cs IH]; intros t; simpl; [done |].
      destruct (apply_change t c) as [t' | r' | e'] eqn:Hc;
        [apply IH | | done].
      intros [= ->]. unfold apply_change in Hc.
      repeat case_match; congruence.
  - intros H. apply apply_changes_failure_keeps_object in H as ->. lia.
Qed.

(** C2.  For a replace operation the loop body answers
    [invalid_position] exactly when its position is negative or greater
    than the length of the working text; when an operation of the list
    fails so (those after it in the list, which the loop handles first,
    having gone through), [apply_changes] returns that failure and both
    the object (its version included) and the disk are what they were;
    and a position in bounds whose position plus length runs past the
    end deletes up to the end of the text without an error. *)
Theorem apply_changes_invalid_range :
  (∀ (content : text) (position : Z) (new_content : text)
     (length : option Z),
     apply_change content
       {| ch_type := Some "replace"%string; ch_position := Some position;
          ch_content := Some new_content; ch_length := length |}
     = Return (false, "invalid_position"%string)
     ↔ position < 0 ∨ position > len content) ∧
  (∀ (self : FileManager) (w : World) (expected_version : option Z)
     (before after : list Change) (bad : Change) (working : text),
     gate_open self expected_version →
     patch (get_content self w) after = Continue working →
     apply_change working bad = Return (false, "invalid_position"%string) →
     apply_changes md5_hexdigest self (before ++ bad :: after)
       expected_version w
     = (self, w, (false, "invalid_position"%string))) ∧
  (∀ (content : text) (position length : Z) (new_content : text),
     0 ≤ position ≤ len content →
     len content < position + length →
     apply_change content (replace_op position new_content length)
     = Continue (take (Z.to_nat position) content ++ new_content)).
Proof.
  split; [| split].
  - intros content position new_content length.
    rewrite apply_change_replace.
    destruct (Z.ltb_spec position 0), (Z.gtb_spec position (len content));
      simpl; split; (done || lia || (intros _; lia)).
  - intros self w ev before after bad working Hgate Hafter Hbad.
    rewrite apply_changes_gate_open by done.
    replace (before ++ bad :: after) with ((before ++ [bad]) ++ after)
      by (by rewrite <- app_assoc).
    unfold patch in *. rewrite reverse_app, for_each_app, Hafter.
    rewrite reverse_snoc. simpl. by rewrite Hbad.
  - intros content position length new_content Hpos Hlen.
    unfold replace_op. rewrite apply_change_replace.
    destruct (Z.ltb_spec position 0); [lia |].
    destruct (Z.gtb_spec position (len content)); [lia |]. simpl.
    rewrite slice_to_take by lia.
    rewrite slice_from_drop by lia.
    rewrite (drop_ge content) by (unfold len in *; lia).
    by rewrite app_nil_r.
Qed.

(** C3.  Called with an expected version that differs from the current
    one, [apply_changes] answers [version_mismatch] whatever the change
    list is, and hands back the very object and the very disk it was
    given: version and stored content are as before the call. *)
Theorem apply_changes_version_conflict
  (self : FileManager) (changes : list Change) (expected_version : Z)
  (w : World) :
  expected_version ≠ version self →
  apply_changes md5_hexdigest self changes (Some expected_version) w
  = (self, w, (false, "version_mismatch"%string)).
Proof.
  intros Hne. unfold apply_changes, validate_version.
  rewrite bool_decide_eq_false_2 by congruence. done.
Qed.

(** C4.  A freshly constructed manager is at version 0; a full replace or
    a patch moves the version up by exactly 1 when it succeeds and leaves
    it alone when it fails, so the version never goes down; two full
    replaces in a row on a fresh manager, both successful, give versions
    1 and then 2. *)
Theorem version_counter :
  (∀ path w self w',
     FileManager_init md5_hexdigest path w = Ok (self, w') →
     version self = 0) ∧
  (∀ self content w self' w' ok,
     update_full_content md5_hexdigest self content w = (self', w', ok) →
     version self' = version self + (if ok then 1 else 0) ∧
     version self ≤ version self') ∧
  (∀ self changes expected_version w self' w' ok msg,
     apply_changes md5_hexdigest self changes expected_version w
     = (self', w', (ok, msg)) →
     version self' = version self + (if ok then 1 else 0) ∧
     version self ≤ version self') ∧
  (∀ path w self w0 first second self1 w1 self2 w2,
     FileManager_init md5_hexdigest path w = Ok (self, w0) →
     update_full_content md5_hexdigest self first w0 = (self1, w1, true) →
     update_full_content md5_hexdigest self1 second w1
     = (self2, w2, true) →
     version self1 = 1 ∧ version self2 = 2).
Proof.
  assert (Hinit : ∀ path w self w',
    FileManager_init md5_hexdigest path w = Ok (self, w') →
    version self = 0).
  { intros path w self w'. unfold FileManager_init.
    destruct (ensure_file_exists _ w) as [w1 | e w1]; [| done].
    intros [= <- <-].
    by destruct (load_metadata_keeps
                   {| file_path := resolve w path; version := 0;
                      last_modified := None; content_hash := None |} w1)
      as [_ ->]. }
  split; [exact Hinit |]. split; [| split].
  - intros self content w self' w' ok Hu.
    apply update_full_content_version in Hu as [Hu _].
    split; [done |]. destruct ok; lia.
  - intros self changes ev w self' w' ok msg Ha.
    apply apply_changes_version in Ha.
    split; [done |]. destruct ok; lia.
  - intros path w self w0 first second self1 w1 self2 w2 Hi H1 H2.
    apply Hinit in Hi.
    apply update_full_content_version in H1 as [H1 _].
    apply update_full_content_version in H2 as [H2 _].
    lia.
Qed.


(** C10.  A change without a [length] key is handled exactly as the same
    change with [length] 0, by the loop body and so by [apply_changes] as
    a whole; a replace without it never raises, and with its position in
    bounds it inserts its content there and deletes nothing. *)
Theorem apply_change_missing_length :
  (∀ content type position new_content,
     apply_change content
       {| ch_type := type; ch_position := position;
          ch_content := new_content; ch_length := None |}
     = apply_change content
         {| ch_type := type; ch_position := position;
            ch_content := new_content; ch_length := Some 0 |}) ∧
  (∀ content position new_content e,
     apply_change content
       {| ch_type := Some "replace"%string; ch_position := Some position;
          ch_content := Some new_content; ch_length := None |}
     ≠ Raise e) ∧
  (∀ content position new_content,
     0 ≤ position ≤ len content →
     apply_change content
       {| ch_type := Some "replace"%string; ch_position := Some position;
          ch_content := Some new_content; ch_length := None |}
     = Continue (take (Z.to_nat position) content ++ new_content ++
                 drop (Z.to_nat position) content)) ∧
  (∀ self w expected_version before after type position new_content,
     apply_changes md5_hexdigest self
       (before ++
        {| ch_type := type; ch_position := position;
           ch_content := new_content; ch_length := None |} :: after)
       expected_version w
     = apply_changes md5_hexdigest self
         (before ++
          {| ch_type := type; ch_position := position;
             ch_content := new_content; ch_length := Some 0 |} :: after)
         expected_version w).
Proof.
  assert (Hbody : ∀ content type position new_content,
     apply_change content
       {| ch_type := type; ch_position := position;
          ch_content := new_content; ch_length := None |}
     = apply_change content
         {| ch_type := type; ch_position := position;
            ch_content := new_content; ch_length := Some 0 |})
    by reflexivity.
  split; [exact Hbody |]. split; [| split].
  - intros content position new_content e.
    rewrite apply_change_replace. by case_match.
  - intros content position new_content Hpos.
    rewrite apply_change_replace.
    destruct (Z.ltb_spec position 0); [lia |].
    destruct (Z.gtb_spec position (len content)); [lia |]. simpl.
    rewrite slice_to_take by lia.
    rewrite slice_from_drop by lia.
    by rewrite Z.add_0_r.
  - intros self w ev before after type position new_content.
    unfold apply_changes. case_match; [done |].
    unfold patch. rewrite !reverse_app, !reverse_cons.
    rewrite <- !app_assoc, !for_each_app.
    destruct (for_each apply_change (reverse after) _); [| done | done].
    simpl. by rewrite Hbody.
Qed.

End Document.

(** C1.  Round trip: for all texts [A] and [B], running the patch loop of
    [apply_changes] on [A] with the change list [calculate_diff A B] goes
    through without an error and leaves exactly [B]. *)
Theorem calculate_diff_patch_roundtrip (A B : text) :
  patch A (calculate_diff A B) = Continue B.
Proof.
  unfold calculate_diff.
  destruct (negb (truthy A) && truthy B) eqn:Hins.
  { (* insertion into the empty text *)
    apply andb_true_iff in Hins as [HA _].
    apply negb_true_iff, truthy_false in HA. subst A.
    rewrite patch_singleton by (unfold len; simpl; lia).
    rewrite slice_to_take, slice_from_drop by lia.
    simpl. by rewrite app_nil_r. }
  destruct (truthy A && negb (truthy B)) eqn:Hdel.
  { (* deletion of the whole text *)
    apply andb_true_iff in Hdel as [_ HB].
    apply negb_true_iff, truthy_false in HB. subst B.
    rewrite patch_singleton by (pose proof (len_nonneg A); lia).
    rewrite slice_to_take by lia.
    rewrite slice_from_drop by (pose proof (len_nonneg A); lia).
    rewrite drop_ge by (unfold len; lia). done. }
  pose proof (scans_spec A B) as Hscan. simpl in Hscan.
  set (p := prefix_loop A B 0) in *.
  set (s := suffix_loop A B (Z.min (len A - p) (len B - p)) 0) in *.
  destruct Hscan as ((Hp & Hs & HpsA & HpsB) & Hpre & Hsuf).
  cbv zeta.
  pose proof (split_three A p s Hp Hs HpsA) as HA.
  pose proof (split_three B p s Hp Hs HpsB) as HB.
  case_bool_decide as Hmid.
  - (* one replace of the old middle by the new one *)
    rewrite patch_singleton by lia.
    rewrite slice_to_take by lia.
    rewrite len_slice by lia.
    rewrite slice_from_drop by lia.
    replace (p + (len A - s - p)) with (len A - s) by lia.
    rewrite Hpre, Hsuf. by rewrite <- HB.
  - (* equal middles: the texts are equal, nothing to apply *)
    unfold patch. simpl.
    f_equal. etrans; [exact HA |].
    rewrite Hpre, Hmid, Hsuf. symmetry. exact HB.
Qed.

(** With the disk read-only the empty patch is not a mutation: the write
    fails and the version stays. *)
Example apply_changes_empty_list_read_only :
  apply_changes no_digest (manager_at "notes.txt" 2) [] (Some 2)
    (read_only (written "notes.txt" (str "abc")))
  = (manager_at "notes.txt" 2, read_only (written "notes.txt" (str "abc")),
     (false, "write_failed"%string)).
Proof. reflexivity. Qed.

(** The example run at the end of [file_manager.py]. *)
Example calculate_diff_hello_world :
  calculate_diff (str "Hello World") (str "Hello Beautiful World")
  = [ replace_op 6 (str "Beautiful ") 0 ].
Proof. vm_compute. reflexivity. Qed.

(** ** The registry *)

Section Registry.

Variable md5_hexdigest : text → text.

(** A key that is registered is answered from the map: same handle, and
    neither the pool nor the store is touched. *)
Lemma get_manager_hit pool key st handle :
  managers pool !! key = Some handle →
  get_manager md5_hexdigest pool key st = Ok (handle, pool, st).
Proof. intros H. unfold get_manager. by rewrite H. Qed.

(** What a returning call leaves behind. *)
Lemma get_manager_registers pool key st handle pool' st' :
  get_manager md5_hexdigest pool key st = Ok (handle, pool', st') →
  managers pool' !! key = Some handle ∧
  (∀ k h, managers pool !! k = Some h → managers pool' !! k = Some h).
Proof.
  unfold get_manager.
  destruct (managers pool !! key) as [h0 |] eqn:Hk.
  - by intros [= <- <- <-].
  - destruct (FileManager_init _ _ _) as [[fm w'] | e w']; [| done].
    intros [= <- <- <-]. simpl. split; [apply lookup_insert_eq |].
    intros k h Hkh. rewrite lookup_insert_ne; [done | congruence].
Qed.

(** A key the pool has not seen: the constructor runs once on the current
    disk, and its object is stored at a reference no object had. *)
Lemma get_manager_miss pool key st handle pool' st' :
  managers pool !! key = None →
  get_manager md5_hexdigest pool key st = Ok (handle, pool', st') →
  ∃ manager,
    FileManager_init md5_hexdigest key (world st)
    = Ok (manager, world st') ∧
    heap st !! handle = None ∧
    heap st' = <[handle := manager]> (heap st) ∧
    managers pool' = <[key := handle]> (managers pool).
Proof.
  intros Hk. unfold get_manager. rewrite Hk.
  destruct (FileManager_init _ _ _) as [[fm w'] | e w']; [| done].
  intros [= <- <- <-]. exists fm. simpl. repeat split.
  apply not_elem_of_dom, is_fresh.
Qed.

Lemma pool_wf_init w : pool_wf FileManagerPool_init (mkStore ∅ w).
Proof. split; [done |]. intros k h. simpl. by rewrite lookup_empty. Qed.

Lemma get_manager_wf pool key st handle pool' st' :
  pool_wf pool st →
  get_manager md5_hexdigest pool key st = Ok (handle, pool', st') →
  pool_wf pool' st'.
Proof.
  intros [Hsize Hlive] Hget.
  destruct (managers pool !! key) as [h0 |] eqn:Hk.
  - rewrite (get_manager_hit _ _ _ h0) in Hget by done.
    injection Hget as <- <- <-. by split.
  - destruct (get_manager_miss _ _ _ _ _ _ Hk Hget)
      as (fm & _ & Hfresh & Hheap & Hmap).
    split.
    + rewrite Hheap, Hmap.
      rewrite !map_size_insert_None by done. by rewrite Hsize.
    + intros k h. rewrite Hheap, Hmap.
      destruct (decide (key = k)) as [-> | Hne].
      * rewrite lookup_insert_eq. intros [= <-].
        rewrite lookup_insert_eq. by eexists.
      * rewrite lookup_insert_ne by done. intros Hkh.
        destruct (Hlive _ _ Hkh) as [fm' Hfm'].
        rewrite lookup_insert_ne; [by eexists |].
        intros <-. congruence.
Qed.

Lemma get_managers_wf keys : ∀ pool st answers pool' st',
  pool_wf pool st →
  get_managers md5_hexdigest pool st keys = (answers, pool', st') →
  pool_wf pool' st'.
Proof.
  induction keys as [| key keys IH]; intros pool st answers pool' st' Hwf;
    simpl.
  - by intros [= _ <- <-].
  - destruct (get_manager _ pool key st) as [[[h pool1] st1] | e w1] eqn:Hg.
    + destruct (get_managers _ pool1 st1 keys) as [[ans p2] s2] eqn:Hrest.
      intros [= _ <- <-].
      eapply IH; [| exact Hrest]. by eapply get_manager_wf.
    + destruct (get_managers _ pool (mkStore (heap st) w1) keys)
      as [[ans p2] s2] eqn:Hrest.
      intros [= _ <- <-].
      eapply (IH _ (mkStore (heap st) w1)); [exact Hwf | exact Hrest].
Qed.

(** Once a key is registered, every later request for it is answered
    with its handle. *)
Lemma get_managers_registered keys : ∀ pool st answers pool' st' key handle,
  managers pool !! key = Some handle →
  get_managers md5_hexdigest pool st keys = (answers, pool', st') →
  managers pool' !! key = Some handle ∧
  ∀ j, keys !! j = Some key → answers !! j = Some (Ok handle).
Proof.
  induction keys as [| k keys IH];
    intros pool st answers pool' st' key handle Hreg; simpl.
  - intros [= <- <- <-]. split; [done |]. intros j. by rewrite lookup_nil.
  - destruct (get_manager _ pool k st) as [[[h pool1] st1] | e w1] eqn:Hg.
    + destruct (get_managers _ pool1 st1 keys) as [[ans p2] s2] eqn:Hrest.
      intros [= <- <- <-].
      destruct (get_manager_registers _ _ _ _ _ _ Hg) as [Hk Hkeep].
      destruct (IH _ _ _ _ _ key handle (Hkeep _ _ Hreg) Hrest)
        as [Hfinal Hans].
      split; [done |]. intros [| j]; simpl; [| apply Hans].
      intros [= ->]. rewrite (Hkeep _ _ Hreg) in Hk. congruence.
    + destruct (get_managers _ pool (mkStore (heap st) w1) keys)
      as [[ans p2] s2] eqn:Hrest.
      intros [= <- <- <-].
      destruct (IH _ _ _ _ _ key handle Hreg Hrest) as [Hfinal Hans].
      split; [done |]. intros [| j]; simpl; [| apply Hans].
      intros [= ->]. rewrite (get_manager_hit _ _ _ handle) in Hg; done.
Qed.

(** Two requests for one key in a request sequence get one handle. *)
Lemma get_managers_same_handle keys :
  ∀ pool st answers pool' st' i j key hi hj,
  get_managers md5_hexdigest pool st keys = (answers, pool', st') →
  keys !! i = Some key → keys !! j = Some key →
  answers !! i = Some (Ok hi) → answers !! j = Some (Ok hj) →
  hi = hj.
Proof.
  induction keys as [| k keys IH];
    intros pool st answers pool' st' i j key hi hj; simpl;
    [intros _; by rewrite lookup_nil |].
  destruct (get_manager _ pool k st) as [[[h pool1] st1] | e w1] eqn:Hg.
  - destruct (get_managers _ pool1 st1 keys) as [[ans p2] s2] eqn:Hrest.
    intros [= <- <- <-].
    destruct (get_manager_registers _ _ _ _ _ _ Hg) as [Hk _].
    destruct i as [| i], j as [| j]; simpl.
    + intros _ _ [= <-] [= <-]. done.
    + intros [= ->] Hj [= <-] Haj.
      destruct (get_managers_registered _ _ _ _ _ _ _ _ Hk Hrest)
        as [_ Hans].
      rewrite (Hans _ Hj) in Haj. congruence.
    + intros Hi [= ->] Hai [= <-].
      destruct (get_managers_registered _ _ _ _ _ _ _ _ Hk Hrest)
        as [_ Hans].
      rewrite (Hans _ Hi) in Hai. congruence.
    + by eapply IH.
  - destruct (get_managers _ pool (mkStore (heap st) w1) keys)
      as [[ans p2] s2] eqn:Hrest.
    intros [= <- <- <-].
    destruct i as [| i], j as [| j]; simpl; [done | done | done |].
    by eapply IH.
Qed.

(** C8.  [get_manager] is idempotent per key: a second call with the
    same key returns the handle of the first and constructs nothing
    (pool and store are untouched); what a method does to the object
    through one handle is what a read through the other handle sees; in
    any sequence of requests two answers for one key are one handle; a
    key not seen before runs the constructor once and stores its object
    at a fresh reference; and from an empty pool the heap holds exactly
    one object per registered key. *)
Theorem get_manager_same_instance :
  (∀ pool key st handle pool' st',
     get_manager md5_hexdigest pool key st = Ok (handle, pool', st') →
     get_manager md5_hexdigest pool' key st' = Ok (handle, pool', st')) ∧
  (∀ pool key st first pool1 st1 second pool2 st2
     {R : Type} (method : FileManager → World → FileManager * World * R)
     self st3 r,
     get_manager md5_hexdigest pool key st = Ok (first, pool1, st1) →
     get_manager md5_hexdigest pool1 key st1 = Ok (second, pool2, st2) →
     heap st2 !! first = Some self →
     call first method st2 = Some (st3, r) →
     first = second ∧
     ∀ {Q : Type} (query : FileManager → World → Q),
       peek second query st3 =
       Some (query (method self (world st2)).1.1 (world st3))) ∧
  (∀ keys pool st answers pool' st' i j key hi hj,
     get_managers md5_hexdigest pool st keys = (answers, pool', st') →
     keys !! i = Some key → keys !! j = Some key →
     answers !! i = Some (Ok hi) → answers !! j = Some (Ok hj) →
     hi = hj) ∧
  (∀ pool key st handle pool' st',
     managers pool !! key = None →
     get_manager md5_hexdigest pool key st = Ok (handle, pool', st') →
     ∃ manager,
       FileManager_init md5_hexdigest key (world st)
       = Ok (manager, world st') ∧
       heap st !! handle = None ∧
       heap st' = <[handle := manager]> (heap st) ∧
       managers pool' = <[key := handle]> (managers pool)) ∧
  (∀ keys w answers pool' st',
     get_managers md5_hexdigest FileManagerPool_init (mkStore ∅ w) keys
     = (answers, pool', st') →
     pool_wf pool' st').
Proof.
  split; [| split; [| split; [| split]]].
  - intros pool key st handle pool' st' Hget.
    apply get_manager_hit.
    by destruct (get_manager_registers _ _ _ _ _ _ Hget).
  - intros pool key st first pool1 st1 second pool2 st2 R method self st3 r
      H1 H2 Hself Hcall.
    destruct (get_manager_registers _ _ _ _ _ _ H1) as [Hk _].
    rewrite (get_manager_hit _ _ _ _ Hk) in H2.
    injection H2 as <- <- <-. split; [done |].
    intros Q query. unfold call in Hcall. rewrite Hself in Hcall.
    destruct (method self (world st1)) as [[self' w'] r'].
    injection Hcall as <- <-.
    unfold peek. simpl. by rewrite lookup_insert_eq.
  - apply get_managers_same_handle.
  - apply get_manager_miss.
  - intros keys w answers pool' st' Hrun.
    eapply get_managers_wf; [apply pool_wf_init | exact Hrun].
Qed.

End Registry.

(** ** Order of application *)

Lemma patch_app content lower higher :
  patch content (lower ++ higher) =
  match patch content higher with
  | Continue content' => patch content' lower
  | Return r => Return r
  | Raise e => Raise e
  end.
Proof. unfold patch. by rewrite reverse_app, for_each_app. Qed.

Lemma patch_cons content change changes :
  patch content (change :: changes) =
  match patch content changes with
  | Continue content' => apply_change content' change
  | Return r => Return r
  | Raise e => Raise e
  end.
Proof.
  change (change :: changes) with ([change] ++ changes).
  rewrite patch_app. destruct (patch content changes); [| done | done].
  unfold patch. simpl. by destruct (apply_change s change).
Qed.

Section Ascending.

Variable original : text.

Lemma in_position_order_weaken ops : ∀ floor floor',
  floor' ≤ floor →
  in_position_order original floor ops →
  in_position_order original floor' ops.
Proof.
  destruct ops as [| o ops]; intros floor floor' Hle; simpl; [done |].
  intros [Hpos Hrest]. split; [lia | done].
Qed.

(** Ending before the next operation begins is more than not decreasing. *)
Lemma ascending_in_position_order ops : ∀ cursor,
  ascending original cursor ops →
  in_position_order original cursor ops.
Proof.
  induction ops as [| o ops IH]; intros cursor; simpl; [done |].
  intros (Hpos & Hlen & Hrest). split; [done |].
  apply (in_position_order_weaken _ (op_position o + op_length o));
    [lia | by apply IH].
Qed.

(** Every operation of a list in position order lies at or above the
    floor. *)
Lemma in_position_order_floor ops : ∀ floor o,
  in_position_order original floor ops →
  o ∈ ops → floor ≤ op_position o.
Proof.
  induction ops as [| a ops IH]; intros floor o; simpl.
  - intros _ Ho. by apply elem_of_nil in Ho.
  - intros [Hpos Hrest] Ho.
    apply elem_of_cons in Ho as [-> | Ho]; [lia |].
    specialize (IH _ _ Hrest Ho). lia.
Qed.

(** Positions grow along a list in position order. *)
Lemma in_position_order_positions ops : ∀ floor (i j : nat) a b,
  in_position_order original floor ops →
  (i ≤ j)%nat → ops !! i = Some a → ops !! j = Some b →
  op_position a ≤ op_position b.
Proof.
  induction ops as [| o ops IH]; intros floor i j a b; simpl;
    [intros _ _; by rewrite lookup_nil |].
  intros [Hpos Hrest] Hij.
  destruct i as [| i], j as [| j]; simpl; try lia.
  - intros [= <-] [= <-]. lia.
  - intros [= <-] Hb.
    eapply in_position_order_floor; [exact Hrest |].
    by eapply list_elem_of_lookup_2.
  - apply (IH _ i j a b Hrest). lia.
Qed.

(** Cutting a list in position order: the upper part starts from a floor
    that no operation of the lower part exceeds. *)
Lemma in_position_order_split lower : ∀ floor higher,
  floor ≤ len original →
  in_position_order original floor (lower ++ higher) →
  ∃ floor',
    floor ≤ floor' ≤ len original ∧
    in_position_order original floor' higher ∧
    ∀ o, o ∈ lower → floor ≤ op_position o ≤ floor'.
Proof.
  induction lower as [| a lower IH]; intros floor higher Hfloor; simpl.
  - intros Hhigh. exists floor. split; [lia |]. split; [done |].
    intros o Ho. by apply elem_of_nil in Ho.
  - intros [Hpos Hrest].
    destruct (IH (op_position a) higher ltac:(lia) Hrest)
      as (g & Hg & Hhigh & Hin).
    exists g. split; [lia |]. split; [done |].
    intros o Ho. apply elem_of_cons in Ho as [-> | Ho]; [lia |].
    specialize (Hin _ Ho). lia.
Qed.

(** The loop on a list in position order: no operation is out of range,
    and the text below the floor is never touched. *)
Lemma patch_in_position_order ops : ∀ floor,
  0 ≤ floor ≤ len original →
  in_position_order original floor ops →
  ∃ working,
    patch original (to_change <$> ops) = Continue working ∧
    take (Z.to_nat floor) working = take (Z.to_nat floor) original.
Proof.
  induction ops as [| o ops IH]; intros floor Hfloor.
  - intros _. exists original. by rewrite fmap_nil, patch_nil.
  - intros [Hpos Hrest].
    destruct (IH (op_position o) ltac:(lia) Hrest) as (w & Hw & Hpre).
    rewrite fmap_cons, patch_cons, Hw.
    set (p := op_position o) in *.
    assert (Hlenw : p ≤ len w).
    { assert (length (take (Z.to_nat p) w) = Z.to_nat p) as Hl.
      { rewrite Hpre, length_take. unfold len in *. lia. }
      rewrite length_take in Hl. unfold len in *. lia. }
    unfold to_change, replace_op. rewrite apply_change_replace. fold p.
    destruct (Z.ltb_spec p 0); [lia |].
    destruct (Z.gtb_spec p (len w)); [lia |]. simpl.
    eexists. split; [reflexivity |].
    rewrite slice_to_take by lia.
    rewrite take_app_le by (rewrite length_take; unfold len in *; lia).
    rewrite take_take, Nat.min_l by lia.
    rewrite <- (Nat.min_l (Z.to_nat floor) (Z.to_nat p)) by lia.
    by rewrite <- !take_take, Hpre.
Qed.

(** The loop on an ascending list: what it leaves is the original up to
    the cursor followed by the simultaneous reading of the list. *)
Lemma patch_ascending ops : ∀ cursor,
  0 ≤ cursor →
  ascending original cursor ops →
  patch original (to_change <$> ops) =
  Continue (take (Z.to_nat cursor) original ++
            splice_original original cursor ops).
Proof.
  induction ops as [| o ops IH]; intros cursor Hc.
  - intros _. rewrite fmap_nil, patch_nil. simpl.
    rewrite slice_from_drop by done. by rewrite take_drop.
  - intros (Hpos & Hlen & Hrest).
    rewrite fmap_cons, patch_cons.
    rewrite (IH (op_position o + op_length o)) by (lia || done).
    set (p := op_position o) in *. set (n := op_length o) in *.
    set (rest := splice_original original (p + n) ops).
    set (working := take (Z.to_nat (p + n)) original ++ rest).
    assert (Hhead : (Z.to_nat p
                     ≤ length (take (Z.to_nat (p + n)) original))%nat).
    { rewrite length_take. unfold len in *. lia. }
    assert (Hlenw : p ≤ len working).
    { unfold working. rewrite len_app. pose proof (len_nonneg rest).
      unfold len in *. lia. }
    assert (Htail : drop (Z.to_nat (p + n)) working = rest).
    { unfold working.
      destruct (Z.le_gt_cases (p + n) (len original)) as [Hin | Hout].
      - apply drop_app_length'. rewrite length_take. unfold len in *. lia.
      - assert (rest = []) as ->.
        { unfold rest. destruct ops as [| o' ops']; simpl in *; [| lia].
          rewrite slice_from_drop by lia.
          apply drop_ge. unfold len in *. lia. }
        rewrite app_nil_r. apply drop_ge.
        rewrite length_take. unfold len in *. lia. }
    unfold to_change, replace_op. rewrite apply_change_replace.
    fold p n. cbn [splice_original]. fold p n rest.
    destruct (Z.ltb_spec p 0); [lia |].
    destruct (Z.gtb_spec p (len working)); [lia |]. simpl.
    rewrite slice_to_take by lia.
    rewrite slice_from_drop by lia.
    rewrite Htail. unfold working at 1.
    rewrite take_app_le by done.
    rewrite take_take, Nat.min_l by lia.
    rewrite slice_take_drop by lia.
    rewrite (app_assoc (take (Z.to_nat cursor) original)), take_take_drop.
    do 3 f_equal. lia.
Qed.

End Ascending.

(** C5, as the code has it.  [apply_changes] takes the operations in
    reverse of submission order: whatever the list, its upper part is
    applied in full before its lower part.  For a list submitted in
    ascending position order this is descending order of position, no
    operation is out of range, and the text the upper operations leave
    still agrees with the original up to the position of every lower
    operation, so the lower positions point where they pointed in the
    original text.  When moreover no operation reaches into the next one,
    the outcome is the original text with every operation carried out at
    its original coordinates. *)
Theorem patch_reverse_submission_order :
  (∀ (content : text) (lower higher : list Change),
     patch content (lower ++ higher) =
     match patch content higher with
     | Continue content' => patch content' lower
     | Return r => Return r
     | Raise e => Raise e
     end) ∧
  (∀ (original : text) (ops : list Op),
     in_position_order original 0 ops →
     (∀ (i j : nat) (a b : Op),
        (i ≤ j)%nat →
        reverse ops !! i = Some a → reverse ops !! j = Some b →
        op_position b ≤ op_position a) ∧
     (∀ lower higher : list Op,
        ops = lower ++ higher →
        ∃ working : text,
          patch original (to_change <$> higher) = Continue working ∧
          patch original (to_change <$> ops)
          = patch working (to_change <$> lower) ∧
          ∀ o, o ∈ lower →
            take (Z.to_nat (op_position o)) working
            = take (Z.to_nat (op_position o)) original)) ∧
  (∀ (original : text) (ops : list Op),
     ascending original 0 ops →
     patch original (to_change <$> ops)
     = Continue (splice_original original 0 ops)).
Proof.
  split; [exact patch_app |]. split.
  - intros original ops Hord. split.
    + intros i j a b Hij Ha Hb.
      apply reverse_lookup_Some in Ha as [Ha Hi].
      apply reverse_lookup_Some in Hb as [Hb Hj].
      eapply (in_position_order_positions original ops 0);
        [done | | exact Hb | exact Ha].
      lia.
    + intros lower higher ->.
      destruct (in_position_order_split original lower 0 higher
                  (len_nonneg original) Hord) as (g & Hg & Hhigh & Hin).
      destruct (patch_in_position_order original higher g Hg Hhigh)
        as (working & Hw & Hpre).
      exists working. split; [done |].
      split; [by rewrite fmap_app, patch_app, Hw |].
      intros o Ho. specialize (Hin o Ho).
      rewrite <- (Nat.min_l (Z.to_nat (op_position o)) (Z.to_nat g)) by lia.
      by rewrite <- !take_take, Hpre.
  - intros original ops Hasc.
    rewrite (patch_ascending original ops 0) by (lia || done).
    by rewrite take_0.
Qed.

(** C5, as the specification words it, fails: submitted higher position
    first, the two insertions are applied lower position first, and the
    text that leaves is not the one descending order of position gives. *)
Lemma patch_not_by_descending_position :
  patch (str "abcdef") (to_change <$> out_of_order)
  = Continue (str "aYbcXdef") ∧
  patch_by_position (str "abcdef") out_of_order
  = Continue (str "aYbcdXef") ∧
  patch (str "abcdef") (to_change <$> out_of_order)
  ≠ patch_by_position (str "abcdef") out_of_order.
Proof. repeat split. vm_compute. discriminate. Qed.

(** ** The theorems at concrete inputs *)

Lemma patch_reverse_submission_order_witness :
  in_position_order (str "abcdef") 0 in_order ∧
  ascending (str "abcdef") 0 in_order ∧
  op_position (mkOp 1 2 (str "Y")) ≤ op_position (mkOp 4 0 (str "X")) ∧
  (∃ working,
     patch (str "abcdef") (to_change <$> [mkOp 4 0 (str "X")])
     = Continue working ∧
     take 1 working = take 1 (str "abcdef")) ∧
  patch (str "abcdef") (to_change <$> in_order) = Continue (str "aYdXef").
Proof.
  assert (Hord : in_position_order (str "abcdef") 0 in_order)
    by (vm_compute; intuition discriminate).
  assert (Hasc : ascending (str "abcdef") 0 in_order)
    by (vm_compute; intuition discriminate).
  destruct patch_reverse_submission_order as (_ & Hpos & Hall).
  split; [exact Hord |]. split; [exact Hasc |]. split; [| split].
  - destruct (Hpos _ _ Hord) as [Hdesc _].
    apply (Hdesc 0%nat 1%nat (mkOp 4 0 (str "X")) (mkOp 1 2 (str "Y")));
      [lia | reflexivity | reflexivity].
  - destruct (Hpos _ _ Hord) as [_ Hsplit].
    destruct (Hsplit [mkOp 1 2 (str "Y")] [mkOp 4 0 (str "X")] eq_refl)
      as (working & Hw & _ & Hpre).
    exists working. split; [exact Hw |].
    apply (Hpre (mkOp 1 2 (str "Y"))). apply list_elem_of_here.
  - rewrite (Hall _ _ Hasc). reflexivity.
Defined.

Lemma apply_changes_invalid_range_witness :
  apply_changes no_digest (manager_at "notes.txt" 3)
    ([replace_op 0 (str "x") 0] ++
     replace_op 9 (str "y") 0 :: [replace_op 3 (str "z") 0])
    (Some 3) (written "notes.txt" (str "abc"))
  = (manager_at "notes.txt" 3, written "notes.txt" (str "abc"),
     (false, "invalid_position"%string)) ∧
  apply_change (str "abc") (replace_op 1 (str "X") 10)
  = Continue (str "aX").
Proof.
  destruct (apply_changes_invalid_range no_digest) as (_ & Hreject & Hcut).
  split.
  - apply (Hreject _ _ _ _ _ _ (str "abcz")).
    + right. reflexivity.
    + reflexivity.
    + reflexivity.
  - apply (Hcut (str "abc") 1 10 (str "X")).
    + vm_compute. intuition discriminate.
    + reflexivity.
Defined.

Lemma apply_changes_version_conflict_witness :
  apply_changes no_digest (manager_at "notes.txt" 2)
    [replace_op 0 (str "x") 0] (Some 1) (written "notes.txt" (str "abc"))
  = (manager_at "notes.txt" 2, written "notes.txt" (str "abc"),
     (false, "version_mismatch"%string)).
Proof.
  apply (apply_changes_version_conflict no_digest). discriminate.
Defined.

Lemma version_counter_witness :
  FileManager_init no_digest "notes.txt" blank_disk
  = Ok (manager_at "notes.txt" 0, written "notes.txt" []) ∧
  update_full_content no_digest (manager_at "notes.txt" 0) (str "one")
    (written "notes.txt" [])
  = (manager_at "notes.txt" 1, written "notes.txt" (str "one"), true) ∧
  update_full_content no_digest (manager_at "notes.txt" 1) (str "two")
    (written "notes.txt" (str "one"))
  = (manager_at "notes.txt" 2, written "notes.txt" (str "two"), true) ∧
  apply_changes no_digest (manager_at "notes.txt" 2)
    [replace_op 3 (str "!") 0] (Some 2) (written "notes.txt" (str "two"))
  = (manager_at "notes.txt" 3, written "notes.txt" (str "two!"),
     (true, "success"%string)) ∧
  version (manager_at "notes.txt" 0) = 0 ∧
  version (manager_at "notes.txt" 1) = 0 + 1 ∧
  version (manager_at "notes.txt" 3) = 2 + 1 ∧
  (version (manager_at "notes.txt" 1) = 1 ∧
   version (manager_at "notes.txt" 2) = 2).
Proof.
  destruct (version_counter no_digest) as (Hinit & Hfull & Hpatch & Htwice).
  assert (H0 : FileManager_init no_digest "notes.txt" blank_disk
               = Ok (manager_at "notes.txt" 0, written "notes.txt" []))
    by reflexivity.
  assert (H1 : update_full_content no_digest (manager_at "notes.txt" 0)
                 (str "one") (written "notes.txt" [])
               = (manager_at "notes.txt" 1,
                  written "notes.txt" (str "one"), true))
    by reflexivity.
  assert (H2 : update_full_content no_digest (manager_at "notes.txt" 1)
                 (str "two") (written "notes.txt" (str "one"))
               = (manager_at "notes.txt" 2,
                  written "notes.txt" (str "two"), true))
    by reflexivity.
  assert (H3 : apply_changes no_digest (manager_at "notes.txt" 2)
                 [replace_op 3 (str "!") 0] (Some 2)
                 (written "notes.txt" (str "two"))
               = (manager_at "notes.txt" 3,
                  written "notes.txt" (str "two!"),
                  (true, "success"%string)))
    by reflexivity.
  repeat (split; [assumption |]).
  split; [exact (Hinit _ _ _ _ H0) |].
  split; [exact (proj1 (Hfull _ _ _ _ _ _ H1)) |].
  split; [exact (proj1 (Hpatch _ _ _ _ _ _ _ _ H3)) |].
  exact (Htwice _ _ _ _ _ _ _ _ _ _ H0 H1 H2).
Defined.


Lemma apply_change_missing_length_witness :
  apply_change (str "abc")
    {| ch_type := Some "replace"%string; ch_position := Some 1;
       ch_content := Some (str "X"); ch_length := None |}
  = Continue (str "aXbc").
Proof.
  destruct (apply_change_missing_length no_digest) as (_ & _ & Hins & _).
  apply (Hins (str "abc") 1 (str "X")).
  vm_compute. intuition discriminate.
Defined.

Lemma get_manager_same_instance_witness :
  get_manager no_digest FileManagerPool_init "alice.txt"
    (mkStore ∅ blank_disk) = Ok (1%positive, alice_pool, alice_before) ∧
  get_manager no_digest alice_pool "alice.txt" alice_before
  = Ok (1%positive, alice_pool, alice_before) ∧
  call 1%positive
    (λ self w, update_full_content no_digest self (str "hi") w) alice_before
  = Some (alice_after, true) ∧
  peek 1%positive (λ self _, get_version self) alice_after = Some 1 ∧
  pool_wf alice_pool alice_before.
Proof.
  destruct (get_manager_same_instance no_digest)
    as (Hsame & Hseen & Htrace & Hnew & Hcount).
  assert (H1 : get_manager no_digest FileManagerPool_init "alice.txt"
                 (mkStore ∅ blank_disk)
               = Ok (1%positive, alice_pool, alice_before))
    by reflexivity.
  assert (H2 : get_manager no_digest alice_pool "alice.txt" alice_before
               = Ok (1%positive, alice_pool, alice_before))
    by exact (Hsame _ _ _ _ _ _ H1).
  assert (H3 : call 1%positive
                 (λ self w, update_full_content no_digest self (str "hi") w)
                 alice_before = Some (alice_after, true))
    by reflexivity.
  assert (Hrun : get_managers no_digest FileManagerPool_init
                   (mkStore ∅ blank_disk)
                   ["alice.txt"%string; "alice.txt"%string]
                 = ([Ok 1%positive; Ok 1%positive],
                    alice_pool, alice_before))
    by reflexivity.
  assert (Hone : 1%positive = 1%positive)
    by exact (Htrace _ _ _ _ _ _ 0%nat 1%nat "alice.txt"%string
                1%positive 1%positive Hrun eq_refl eq_refl eq_refl eq_refl).
  assert (Hmiss : heap (mkStore ∅ blank_disk) !! 1%positive = None).
  { destruct (Hnew FileManagerPool_init "alice.txt"%string
                (mkStore ∅ blank_disk) _ _ _ eq_refl H1)
      as (manager & _ & Hfree & _).
    exact Hfree. }
  split; [exact H1 |]. split; [exact H2 |]. split; [exact H3 |]. split.
  - destruct (Hseen _ _ _ _ _ _ _ _ _ _ _ (manager_at "alice.txt" 0) _ _
                H1 H2 eq_refl H3) as [_ Hpeek].
    exact (Hpeek Z (λ self _, get_version self)).
  - exact (Hcount _ _ _ _ _ Hrun).
Defined.

(** * Further properties *)

(** ** More on the diff engine *)

(** When a scan stops, its loop condition is false. *)
Lemma prefix_loop_exit old new p0 :
  let p := prefix_loop old new p0 in
  ¬ (p < len old ∧ p < len new ∧ getitem old p = getitem new p).
Proof.
  remember (Z.to_nat (len old - p0)) as fuel eqn:Hfuel.
  revert p0 Hfuel.
  induction (lt_wf fuel) as [fuel _ IH]. intros p0 ->. simpl.
  rewrite prefix_loop_step.
  destruct (decide _) as [(Hlo & _ & _) | Hstop]; [| exact Hstop].
  apply (IH (Z.to_nat (len old - (p0 + 1)))); [lia | done].
Qed.

Lemma suffix_loop_exit old new m s0 :
  let s := suffix_loop old new m s0 in
  ¬ (s < m ∧
     getitem old (len old - 1 - s) = getitem new (len new - 1 - s)).
Proof.
  remember (Z.to_nat (m - s0)) as fuel eqn:Hfuel.
  revert s0 Hfuel.
  induction (lt_wf fuel) as [fuel _ IH]. intros s0 ->. simpl.
  rewrite suffix_loop_step.
  destruct (decide _) as [(Hlt & _) | Hstop]; [| exact Hstop].
  apply (IH (Z.to_nat (m - (s0 + 1)))); [lia | done].
Qed.

(** Both scans treat the two texts alike. *)
Lemma prefix_loop_sym old new p0 :
  prefix_loop old new p0 = prefix_loop new old p0.
Proof.
  remember (Z.to_nat (len old - p0)) as fuel eqn:Hfuel.
  revert p0 Hfuel.
  induction (lt_wf fuel) as [fuel _ IH]. intros p0 ->.
  rewrite (prefix_loop_step old new), (prefix_loop_step new old).
  destruct (decide _) as [(Hlo & Hln & Hget) | Hstop];
    destruct (decide _) as [(Hlo' & Hln' & Hget') | Hstop'].
  - apply (IH (Z.to_nat (len old - (p0 + 1)))); [lia | done].
  - exfalso. apply Hstop'. by repeat split.
  - exfalso. apply Hstop. by repeat split.
  - done.
Qed.

Lemma suffix_loop_sym old new m s0 :
  suffix_loop old new m s0 = suffix_loop new old m s0.
Proof.
  remember (Z.to_nat (m - s0)) as fuel eqn:Hfuel.
  revert s0 Hfuel.
  induction (lt_wf fuel) as [fuel _ IH]. intros s0 ->.
  rewrite (suffix_loop_step old new), (suffix_loop_step new old).
  destruct (decide _) as [(Hlt & Hget) | Hstop];
    destruct (decide _) as [(Hlt' & Hget') | Hstop'].
  - apply (IH (Z.to_nat (m - (s0 + 1)))); [lia | done].
  - exfalso. apply Hstop'. by split.
  - exfalso. apply Hstop. by split.
  - done.
Qed.

Lemma suffix_loop_capped old new s0 :
  suffix_loop old new s0 s0 = s0.
Proof.
  rewrite suffix_loop_step.
  destruct (decide _) as [(H & _) | _]; [lia | done].
Qed.

(** The two special cases of [calculate_diff] return what its general case
    would: the function is its general case throughout. *)
Lemma calculate_diff_general old new :
  calculate_diff old new =
  let p := prefix_loop old new 0 in
  let s := suffix_loop old new (Z.min (len old - p) (len new - p)) 0 in
  let old_middle := slice old p (len old - s) in
  let new_middle := slice new p (len new - s) in
  if bool_decide (old_middle ≠ new_middle)
  then [ replace_op p new_middle (len old_middle) ] else [].
Proof.
  unfold calculate_diff.
  destruct old as [| a old], new as [| b new]; try reflexivity.
  - (* insertion into the empty text *)
    cbn [truthy negb andb]. cbv zeta.
    pose proof (len_nonneg (b :: new)) as Hb.
    rewrite prefix_loop_step.
    destruct (decide _) as [(H & _ & _) | _]; [by cbn in H |].
    change (len (@nil char)) with 0.
    rewrite Z.min_l by lia. rewrite suffix_loop_capped.
    rewrite !slice_take_drop by (change (len (@nil char)) with 0; lia).
    rewrite !Z.sub_0_r. unfold len. rewrite Nat2Z.id. simpl.
    rewrite take_ge by lia. done.
  - (* deletion of the whole text *)
    cbn [truthy negb andb]. cbv zeta.
    pose proof (len_nonneg (a :: old)) as Ha.
    rewrite prefix_loop_step.
    destruct (decide _) as [(_ & H & _) | _]; [by cbn in H |].
    change (len (@nil char)) with 0.
    rewrite Z.min_r by lia. rewrite suffix_loop_capped.
    rewrite !slice_take_drop by (change (len (@nil char)) with 0; lia).
    rewrite !Z.sub_0_r.
    replace (take (Z.to_nat (len (a :: old))) (drop (Z.to_nat 0) (a :: old)))
      with (a :: old)
      by (simpl drop; rewrite take_ge; [done | unfold len; lia]).
    done.
Qed.

(** The general case, with what the scans guarantee about it. *)
Lemma calculate_diff_cases old new :
  ∃ p s,
    (0 ≤ p ∧ 0 ≤ s ∧ p + s ≤ len old ∧ p + s ≤ len new) ∧
    take (Z.to_nat p) old = take (Z.to_nat p) new ∧
    drop (Z.to_nat (len old - s)) old = drop (Z.to_nat (len new - s)) new ∧
    ¬ (p < len old ∧ p < len new ∧ getitem old p = getitem new p) ∧
    ¬ (s < Z.min (len old - p) (len new - p) ∧
       getitem old (len old - 1 - s) = getitem new (len new - 1 - s)) ∧
    calculate_diff old new =
    if bool_decide (slice old p (len old - s) ≠ slice new p (len new - s))
    then [ replace_op p (slice new p (len new - s)) (len old - s - p) ]
    else [].
Proof.
  exists (prefix_loop old new 0).
  exists (suffix_loop old new
            (Z.min (len old - prefix_loop old new 0)
                   (len new - prefix_loop old new 0)) 0).
  pose proof (scans_spec old new) as (Hb & Hpre & Hsuf). simpl in *.
  split; [exact Hb |]. split; [exact Hpre |]. split; [exact Hsuf |].
  split; [apply prefix_loop_exit |]. split; [apply suffix_loop_exit |].
  rewrite calculate_diff_general. cbv zeta.
  rewrite (len_slice old) by lia. done.
Qed.

(** X1.  The change list is empty exactly when the two texts are equal. *)
Theorem calculate_diff_empty_iff_equal (A B : text) :
  calculate_diff A B = [] ↔ A = B.
Proof.
  destruct (calculate_diff_cases A B)
    as (p & s & (Hp & Hs & HA & HB) & Hpre & Hsuf & _ & _ & ->).
  case_bool_decide as Hmid; split.
  - done.
  - intros ->. done.
  - intros _.
    etrans; [exact (split_three A p s Hp Hs HA) |].
    rewrite Hpre, Hmid, Hsuf. symmetry.
    exact (split_three B p s Hp Hs HB).
  - done.
Qed.

(** X2.  The operation [calculate_diff] returns lies inside the old text
    (its position and its position plus length are between 0 and the old
    length, so applying it needs no truncation), its content is the piece
    of the new text at the same position, the lengths add up, and it is
    never a replacement of a piece by itself. *)
Theorem calculate_diff_operation_in_bounds (A B : text) p c n :
  calculate_diff A B = [replace_op p c n] →
  0 ≤ p ∧ 0 ≤ n ∧ p + n ≤ len A ∧
  p + len c ≤ len B ∧
  len B - len c = len A - n ∧
  c = slice B p (p + len c) ∧
  slice A p (p + n) ≠ c.
Proof.
  destruct (calculate_diff_cases A B)
    as (p' & s & (Hp & Hs & HA & HB) & _ & _ & _ & _ & ->).
  case_bool_decide as Hmid; [| done].
  intros [= <- <- <-].
  rewrite (len_slice B) by lia.
  replace (p' + (len B - s - p')) with (len B - s) by lia.
  replace (p' + (len A - s - p')) with (len A - s) by lia.
  repeat split; (lia || done).
Qed.

(** X3.  The operation is as small as the two scans can make it: the
    characters of the two texts at its position differ (when both texts
    reach that far), and when it both deletes and inserts something, the
    last character it deletes differs from the last it inserts. *)
Theorem calculate_diff_operation_minimal (A B : text) p c n :
  calculate_diff A B = [replace_op p c n] →
  (p < len A → p < len B → A !! Z.to_nat p ≠ B !! Z.to_nat p) ∧
  (0 < n → 0 < len c →
   A !! Z.to_nat (p + n - 1) ≠ B !! Z.to_nat (p + len c - 1)).
Proof.
  destruct (calculate_diff_cases A B)
    as (p' & s & (Hp & Hs & HA & HB) & _ & _ & Hfirst & Hlast & ->).
  case_bool_decide as Hmid; [| done].
  intros [= <- <- <-].
  rewrite (len_slice B) by lia. split.
  - intros H1 H2 Heq. apply Hfirst.
    by rewrite !getitem_lookup by lia.
  - intros H1 H2 Heq. apply Hlast. split; [lia |].
    rewrite !getitem_lookup by lia.
    replace (len A - 1 - s) with (p' + (len A - s - p') - 1) by lia.
    replace (len B - 1 - s) with (p' + (len B - s - p') - 1) by lia.
    done.
Qed.

(** X4.  The diff in the other direction is the inverse operation: same
    position, the deleted piece of the old text as content, the length of
    the inserted piece as length. *)
Theorem calculate_diff_inverse (A B : text) p c n :
  calculate_diff A B = [replace_op p c n] →
  calculate_diff B A = [replace_op p (slice A p (p + n)) (len c)].
Proof.
  pose proof (scans_spec A B) as ((Hp & Hs & HA & HB) & _ & _).
  rewrite (calculate_diff_general A B), (calculate_diff_general B A).
  cbv zeta in *.
  rewrite (prefix_loop_sym B A).
  rewrite (Z.min_comm (len B - _)).
  rewrite (suffix_loop_sym B A).
  set (p' := prefix_loop A B 0) in *.
  set (s := suffix_loop A B (Z.min (len A - p') (len B - p')) 0) in *.
  case_bool_decide as Hmid; [| done].
  intros [= <- <- <-].
  rewrite bool_decide_eq_true_2 by congruence.
  rewrite !len_slice by lia.
  replace (p' + (len A - s - p')) with (len A - s) by lia.
  done.
Qed.

(** X5.  Editing at the end of the text: appending a non-empty piece gives
    the single insertion of that piece at the old length, and cutting it
    off again the single deletion of its length there. *)
Theorem calculate_diff_append (A X : text) :
  X ≠ [] →
  calculate_diff A (A ++ X) = [replace_op (len A) X 0] ∧
  calculate_diff (A ++ X) A = [replace_op (len A) [] (len X)].
Proof.
  intros HX.
  assert (Hp : prefix_loop A (A ++ X) 0 = len A).
  { pose proof (prefix_loop_spec A (A ++ X) 0 ltac:(lia) (len_nonneg _)
                  (len_nonneg _) eq_refl) as (Hp0 & HpA & _ & _).
    pose proof (prefix_loop_exit A (A ++ X) 0) as Hexit. simpl in *.
    set (p := prefix_loop A (A ++ X) 0) in *.
    destruct (decide (p < len A)) as [Hlt |]; [| lia].
    exfalso. apply Hexit. rewrite len_app. pose proof (len_nonneg X).
    split; [done |]. split; [lia |].
    rewrite !getitem_lookup by lia.
    rewrite lookup_app_l; [done | unfold len in *; lia]. }
  pose proof (len_nonneg A) as HA. pose proof (len_nonneg X) as HlX.
  assert (Hmid : slice (A ++ X) (len A) (len (A ++ X) - 0) = X).
  { rewrite slice_take_drop by (rewrite ?len_app; lia).
    rewrite len_app. unfold len. rewrite Nat2Z.id, drop_app_length.
    apply take_ge. lia. }
  assert (Hnone : slice A (len A) (len A - 0) = []).
  { rewrite slice_take_drop by lia.
    replace (len A - 0 - len A) with 0 by lia. apply take_0. }
  split.
  - rewrite calculate_diff_general. cbv zeta. rewrite Hp.
    rewrite Z.sub_diag, Z.min_l by (rewrite len_app; lia).
    rewrite suffix_loop_capped, Hmid, Hnone.
    rewrite bool_decide_eq_true_2 by congruence. done.
  - rewrite calculate_diff_general. cbv zeta.
    rewrite (prefix_loop_sym (A ++ X) A), Hp.
    rewrite Z.sub_diag, Z.min_r by (rewrite len_app; lia).
    rewrite suffix_loop_capped, Hmid, Hnone.
    rewrite bool_decide_eq_true_2 by congruence.
    done.
Qed.

(** ** More on the patch loop *)

(** The only [return] inside the loop is the range failure, and the only
    exceptions are the three dict lookups. *)
Lemma apply_change_return content change r :
  apply_change content change = Return r →
  r = (false, "invalid_position"%string).
Proof. unfold apply_change. repeat case_match; congruence. Qed.

Lemma apply_change_raise content change e :
  apply_change content change = Raise e →
  e = KeyError "type" ∨ e = KeyError "position" ∨ e = KeyError "content".
Proof. unfold apply_change. repeat case_match; naive_solver. Qed.

Lemma patch_return content changes r :
  patch content changes = Return r →
  r = (false, "invalid_position"%string).
Proof.
  revert r. induction changes as [| c cs IH]; intros r; [done |].
  rewrite patch_cons.
  destruct (patch content cs) as [content' | r' | e] eqn:Hcs; [| | done].
  - apply apply_change_return.
  - intros [= <-]. by apply IH.
Qed.

Lemma patch_raise content changes e :
  patch content changes = Raise e →
  e = KeyError "type" ∨ e = KeyError "position" ∨ e = KeyError "content".
Proof.
  revert e. induction changes as [| c cs IH]; intros e; [done |].
  rewrite patch_cons.
  destruct (patch content cs) as [content' | r' | e'] eqn:Hcs; [| done |].
  - apply apply_change_raise.
  - intros [= <-]. by apply IH.
Qed.

(** A change that raises, reached by the loop, ends the call with the
    message of its exception. *)
Lemma apply_changes_raise md5_hexdigest self w ev before after bad working e :
  gate_open self ev →
  patch (get_content self w) after = Continue working →
  apply_change working bad = Raise e →
  apply_changes md5_hexdigest self (before ++ bad :: after) ev w
  = (self, w, (false, str_exn e)).
Proof.
  intros Hgate Hafter Hbad.
  rewrite apply_changes_gate_open by done.
  rewrite patch_app, patch_cons, Hafter, Hbad. done.
Qed.

(** X6.  A change that lacks a key the loop body reads makes [apply_changes]
    answer [False] with the quoted key as message, and nothing is written:
    ['type'] for any change without a type; for a replace, ['position'],
    and then ['content'], which is looked up before the position is range
    checked, so that a replace without content and with a position out of
    range answers ['content'], not [invalid_position]. *)
Theorem apply_changes_missing_key md5_hexdigest
  (self : FileManager) (w : World) (expected_version : option Z)
  (before after : list Change) (working : text) :
  gate_open self expected_version →
  patch (get_content self w) after = Continue working →
  (∀ position content length,
     apply_changes md5_hexdigest self
       (before ++
        {| ch_type := None; ch_position := position;
           ch_content := content; ch_length := length |} :: after)
       expected_version w
     = (self, w, (false, "'type'"%string))) ∧
  (∀ content length,
     apply_changes md5_hexdigest self
       (before ++
        {| ch_type := Some "replace"%string; ch_position := None;
           ch_content := content; ch_length := length |} :: after)
       expected_version w
     = (self, w, (false, "'position'"%string))) ∧
  (∀ position length,
     apply_changes md5_hexdigest self
       (before ++
        {| ch_type := Some "replace"%string; ch_position := Some position;
           ch_content := None; ch_length := length |} :: after)
       expected_version w
     = (self, w, (false, "'content'"%string))).
Proof.
  intros Hgate Hafter. repeat split; intros.
  - by rewrite (apply_changes_raise _ _ _ _ _ _ _ working (KeyError "type")).
  - by rewrite (apply_changes_raise _ _ _ _ _ _ _ working
                  (KeyError "position")).
  - by rewrite (apply_changes_raise _ _ _ _ _ _ _ working
                  (KeyError "content")).
Qed.

Lemma patch_skips_other_types content changes :
  Forall (λ c, is_Some (ch_type c)) changes →
  patch content changes = patch content (filter is_replace changes).
Proof.
  induction 1 as [| c cs [type Htype] _ IH]; [done |].
  rewrite patch_cons, IH.
  destruct (decide (is_replace c)) as [Hrep | Hother].
  - by rewrite (filter_cons_True _ _ _ Hrep), patch_cons.
  - rewrite (filter_cons_False _ _ _ Hother).
    assert (Hskip : ∀ t, apply_change t c = Continue t).
    { intros t. unfold apply_change. rewrite Htype.
      destruct (String.eqb_spec type "replace") as [-> | _]; [| done].
      by destruct Hother. }
    destruct (patch content (filter is_replace cs));
      [apply Hskip | done | done].
Qed.

(** X7.  Changes of any type other than ['replace'] are passed over: when
    every change has a type, [apply_changes] does what it does on the
    replaces alone. *)
Theorem apply_changes_skips_other_types md5_hexdigest
  (self : FileManager) (changes : list Change)
  (expected_version : option Z) (w : World) :
  Forall (λ c, is_Some (ch_type c)) changes →
  apply_changes md5_hexdigest self changes expected_version w
  = apply_changes md5_hexdigest self (filter is_replace changes)
      expected_version w.
Proof.
  intros Htyped. unfold apply_changes.
  by rewrite (patch_skips_other_types _ _ Htyped).
Qed.

(** X8.  The length of a replace is not checked.  A negative length down
    to minus the position deletes nothing and copies the characters before
    the position once more after the inserted content, so the text grows by
    the content and by that many characters; below that the slice counts
    from the end of the text. *)
Theorem apply_change_negative_length
  (content : text) (position length : Z) (new_content : text) :
  0 ≤ position ≤ len content →
  length < 0 →
  (- position ≤ length →
   apply_change content (replace_op position new_content length)
   = Continue (take (Z.to_nat position) content ++ new_content ++
               drop (Z.to_nat (position + length)) content) ∧
   len (take (Z.to_nat position) content ++ new_content ++
        drop (Z.to_nat (position + length)) content)
   = len content + len new_content - length) ∧
  (length < - position →
   apply_change content (replace_op position new_content length)
   = Continue (take (Z.to_nat position) content ++ new_content ++
               drop (Z.to_nat (Z.max 0 (position + length + len content)))
                 content)).
Proof.
  intros Hpos Hneg. unfold replace_op. rewrite apply_change_replace.
  destruct (Z.ltb_spec position 0); [lia |].
  destruct (Z.gtb_spec position (len content)); [lia |]. simpl.
  rewrite slice_to_take by lia. split.
  - intros Hlow. rewrite slice_from_drop by lia. split; [done |].
    rewrite !len_app. unfold len in *.
    rewrite length_take, length_drop. lia.
  - intros Hlow. unfold slice_from, adjust.
    destruct (Z.ltb_spec (position + length) 0); [done | lia].
Qed.


(** ** More on [FileManager] *)

Section MoreDocument.

Variable md5_hexdigest : text → text.

(** The metadata [load_metadata] takes from a file that exists: those of
    the file when it can be read and decoded, else the handler's. *)
Lemma load_metadata_cases self w f :
  files w !! file_path self = Some f →
  load_metadata md5_hexdigest self w
  = {| file_path := file_path self; version := version self;
       last_modified :=
         Some (if readable w (file_path self) && encodable (f_text f)
               then f_mtime f else clock w);
       content_hash :=
         Some (if readable w (file_path self) && encodable (f_text f)
               then md5_hexdigest (universal_newlines (f_text f))
               else []) |}.
Proof.
  intros Hf. unfold load_metadata, read_text. rewrite Hf.
  by destruct (readable w (file_path self)), (encodable (f_text f)).
Qed.


(** The ways [apply_changes] ends, with what it leaves behind. *)
Lemma apply_changes_cases self changes expected_version w self' w' ok msg :
  apply_changes md5_hexdigest self changes expected_version w
  = (self', w', (ok, msg)) →
  (ok = true ∧ msg = "success"%string ∧ gate_open self expected_version ∧
   writable w (file_path self) = true ∧
   ∃ content',
     patch (get_content self w) changes = Continue content' ∧
     encodable content' = true ∧
     self' = {| file_path := file_path self; version := version self + 1;
                last_modified := Some (clock w);
                content_hash :=
                  Some (md5_hexdigest (universal_newlines content')) |} ∧
     w' = set_files w
            (<[file_path self := mkFile content' (clock w)]> (files w))) ∨
  (ok = false ∧ self' = self ∧ w' = w ∧
   (msg = "version_mismatch"%string ∧ ¬ gate_open self expected_version ∨
    msg = "invalid_position"%string ∨
    msg = "write_failed"%string ∧ writable w (file_path self) = false ∨
    msg ∈ ["'type'"; "'position'"; "'content'"]%string)) ∨
  (ok = false ∧ self' = self ∧ msg = "write_failed"%string ∧
   writable w (file_path self) = true ∧
   (∃ content',
      patch (get_content self w) changes = Continue content' ∧
      encodable content' = false) ∧
   w' = set_files w (<[file_path self := mkFile [] (clock w)]> (files w))).
Proof.
  destruct (decide (gate_open self expected_version)) as [Hgate | Hshut].
  - rewrite apply_changes_gate_open by done.
    destruct (patch (get_content self w) changes)
      as [content' | r | e] eqn:Hpatch.
    + destruct (update_full_content_cases md5_hexdigest self content' w)
        as [(Hw & Henc & ->) | [(Hw & Henc & ->) | (Hw & ->)]];
        intros [= <- <- <- <-].
      * left. repeat (split; [done |]). by exists content'.
      * right. right. repeat (split; [done |]).
        split; [by exists content' | done].
      * right. left. repeat (split; [done |]). right. right. left. done.
    + apply patch_return in Hpatch as ->. intros [= <- <- <- <-].
      right. left. repeat (split; [done |]). right. left. done.
    + intros [= <- <- <- <-]. right. left. repeat (split; [done |]).
      right. right. right.
      destruct (patch_raise _ _ _ Hpatch) as [-> | [-> | ->]]; simpl;
        set_solver.
  - unfold apply_changes.
    destruct expected_version as [v |]; [| by destruct Hshut; left].
    unfold validate_version. case_bool_decide as Hv.
    { destruct Hshut. right. by rewrite Hv. }
    intros [= <- <- <- <-]. right. left. repeat (split; [done |]).
    left. done.
Qed.


(** X11.  Constructing a manager never overwrites an existing file:
    files and directories stay as they are, and hash and time are taken
    from the file when it can be read and decoded, and are the empty hash
    and the current time when it cannot.  For a missing file the missing
    directories are made and the file is created empty, no other file
    being touched.  When the directories or the file cannot be made the
    constructor raises: no file has changed then, but the directories
    made up to there remain.  The version is 0 whenever an object is
    built. *)
Theorem FileManager_init_keeps_content (path : string) (w : World) :
  (∀ f, files w !! resolve w path = Some f →
     FileManager_init md5_hexdigest path w
     = Ok ({| file_path := resolve w path; version := 0;
              last_modified :=
                Some (if readable w (resolve w path) && encodable (f_text f)
                      then f_mtime f else clock w);
              content_hash :=
                Some (if readable w (resolve w path) && encodable (f_text f)
                      then md5_hexdigest (universal_newlines (f_text f))
                      else []) |}, w)) ∧
  (files w !! resolve w path = None →
   (mkdir w (resolve w path)).2 = true →
   writable w (resolve w path) = true →
   ∃ self w',
     FileManager_init md5_hexdigest path w = Ok (self, w') ∧
     file_path self = resolve w path ∧ version self = 0 ∧
     get_content self w' = [] ∧
     content_hash self = Some (md5_hexdigest []) ∧
     files w' = <[resolve w path := mkFile [] (clock w)]> (files w) ∧
     dirs w' = dirs w ∪ (mkdir w (resolve w path)).1) ∧
  (files w !! resolve w path = None →
   (mkdir w (resolve w path)).2 = false ∨
   writable w (resolve w path) = false →
   ∃ w',
     FileManager_init md5_hexdigest path w
     = Raised (OSError (resolve w path)) w' ∧
     files w' = files w ∧
     dirs w' = dirs w ∪ (mkdir w (resolve w path)).1).
Proof.
  unfold FileManager_init, ensure_file_exists, mkdir_parent. simpl.
  split; [| split].
  - intros f Hf. rewrite Hf. simpl. rewrite Hf.
    by rewrite (load_metadata_cases _ _ f).
  - intros Hnone Hdir Hw. rewrite Hnone, Hdir. simpl. rewrite Hnone.
    unfold write_text. simpl.
    change (writable (set_dirs w _) (resolve w path))
      with (writable w (resolve w path)). rewrite Hw.
    eexists _, _. split; [reflexivity |].
    rewrite (load_metadata_cases _ _ (mkFile [] (clock w)))
      by (simpl; by rewrite lookup_insert_eq).
    unfold get_content, read_text. simpl. rewrite lookup_insert_eq.
    change (readable (set_files _ _) (resolve w path))
      with (readable w (resolve w path)).
    rewrite (writable_readable _ _ Hw). done.
  - intros Hnone Hfail. rewrite Hnone.
    destruct ((mkdir w (resolve w path)).2) eqn:Hdir.
    + destruct Hfail as [? | Hw]; [done |]. simpl. rewrite Hnone.
      unfold write_text.
      change (writable (set_dirs w _) (resolve w path))
        with (writable w (resolve w path)). rewrite Hw.
      by eexists.
    + by eexists.
Qed.



End MoreDocument.

(** ** More on the registry *)

Section MoreRegistry.

Variable md5_hexdigest : text → text.

(** What the constructor returns when it returns: it keeps every file
    that is there. *)
Lemma FileManager_init_ok path w self w' :
  FileManager_init md5_hexdigest path w = Ok (self, w') →
  file_path self = resolve w path ∧ version self = 0 ∧
  resolve w' = resolve w ∧ access w' = access w ∧
  is_Some (files w' !! resolve w path) ∧
  ∀ other f, files w !! other = Some f → files w' !! other = Some f.
Proof.
  unfold FileManager_init, ensure_file_exists, mkdir_parent. simpl.
  destruct (files w !! resolve w path) as [f |] eqn:Hf.
  - simpl. rewrite Hf. intros [= <- <-].
    rewrite (load_metadata_cases _ _ _ f) by done. simpl.
    rewrite Hf. by eauto 10.
  - destruct ((mkdir w (resolve w path)).2); [| done]. simpl. rewrite Hf.
    unfold write_text. simpl.
    destruct (writable _ _); [| done]. simpl.
    intros [= <- <-].
    rewrite (load_metadata_cases _ _ _ (mkFile [] (clock w)))
      by (simpl; by rewrite lookup_insert_eq).
    simpl. rewrite lookup_insert_eq. repeat split; [by eauto |].
    intros other f Hother. rewrite lookup_insert_ne; [done | congruence].
Qed.

(** When the constructor raises, every file is as it was. *)
Lemma FileManager_init_raised path w e w' :
  FileManager_init md5_hexdigest path w = Raised e w' →
  files w' = files w.
Proof.
  unfold FileManager_init, ensure_file_exists, mkdir_parent. simpl.
  destruct (files w !! resolve w path) as [f |] eqn:Hf.
  - simpl. by rewrite Hf.
  - destruct ((mkdir w (resolve w path)).2); [| by intros [= _ <-]].
    simpl. rewrite Hf. unfold write_text. simpl.
    destruct (writable _ _); [done |]. by intros [= _ <-].
Qed.

Lemma get_manager_inj_live pool key st handle pool' st' :
  pool_inj pool → pool_live pool st →
  get_manager md5_hexdigest pool key st = Ok (handle, pool', st') →
  pool_inj pool' ∧ pool_live pool' st'.
Proof.
  intros Hinj Hlive Hget.
  destruct (managers pool !! key) as [h0 |] eqn:Hk.
  - rewrite (get_manager_hit _ _ _ _ h0) in Hget by done.
    by injection Hget as <- <- <-.
  - destruct (get_manager_miss _ _ _ _ _ _ _ Hk Hget)
      as (fm & _ & Hfresh & Hheap & Hmap).
    split.
    + intros k1 k2 h. rewrite Hmap.
      destruct (decide (key = k1)) as [<- | Hne1],
               (decide (key = k2)) as [<- | Hne2];
        rewrite ?lookup_insert_eq, ?lookup_insert_ne by done.
      * done.
      * intros [= <-] H2. destruct (Hlive _ _ H2) as [x Hx]. congruence.
      * intros H1 [= <-]. destruct (Hlive _ _ H1) as [x Hx]. congruence.
      * apply Hinj.
    + intros k h. rewrite Hmap, Hheap.
      destruct (decide (key = k)) as [<- | Hne];
        rewrite ?lookup_insert_eq, ?lookup_insert_ne by done.
      * intros [= <-]. rewrite lookup_insert_eq. by eexists.
      * intros Hkh. destruct (Hlive _ _ Hkh) as [x Hx].
        rewrite lookup_insert_ne; [by eexists | congruence].
Qed.

Lemma get_managers_inj_live keys : ∀ pool st answers pool' st',
  pool_inj pool → pool_live pool st →
  get_managers md5_hexdigest pool st keys = (answers, pool', st') →
  pool_inj pool' ∧ pool_live pool' st'.
Proof.
  induction keys as [| key keys IH];
    intros pool st answers pool' st' Hinj Hlive; simpl.
  - by intros [= _ <- <-].
  - destruct (get_manager _ pool key st) as [[[h pool1] st1] | e w1] eqn:Hg.
    + destruct (get_managers _ pool1 st1 keys) as [[ans p2] s2] eqn:Hrest.
      intros [= _ <- <-].
      destruct (get_manager_inj_live _ _ _ _ _ _ Hinj Hlive Hg).
      by eapply IH.
    + destruct (get_managers _ pool (mkStore (heap st) w1) keys)
        as [[ans p2] s2] eqn:Hrest.
      intros [= _ <- <-].
      eapply (IH _ (mkStore (heap st) w1)); [exact Hinj | exact Hlive |].
      exact Hrest.
Qed.

Lemma pool_inj_init : pool_inj FileManagerPool_init.
Proof.
  intros k1 k2 h. unfold FileManagerPool_init. simpl.
  by rewrite lookup_empty.
Qed.

Lemma pool_live_init st : pool_live FileManagerPool_init st.
Proof.
  intros k h. unfold FileManagerPool_init. simpl. by rewrite lookup_empty.
Qed.

(** Every answer of a request sequence is registered when it ends. *)
Lemma get_managers_answers keys : ∀ pool st answers pool' st' i key handle,
  get_managers md5_hexdigest pool st keys = (answers, pool', st') →
  keys !! i = Some key → answers !! i = Some (Ok handle) →
  managers pool' !! key = Some handle.
Proof.
  induction keys as [| k keys IH];
    intros pool st answers pool' st' i key handle; simpl;
    [intros _; by rewrite lookup_nil |].
  destruct (get_manager _ pool k st) as [[[h pool1] st1] | e w1] eqn:Hg.
  - destruct (get_managers _ pool1 st1 keys) as [[ans p2] s2] eqn:Hrest.
    intros [= <- <- <-]. destruct i as [| i]; simpl.
    + intros [= ->] [= <-].
      destruct (get_manager_registers _ _ _ _ _ _ _ Hg) as [Hk _].
      by destruct (get_managers_registered _ _ _ _ _ _ _ _ _ Hk Hrest).
    + by eapply IH.
  - destruct (get_managers _ pool (mkStore (heap st) w1) keys)
      as [[ans p2] s2] eqn:Hrest.
    intros [= <- <- <-]. destruct i as [| i]; simpl; [done |].
    by eapply IH.
Qed.

(** X13.  In any sequence of requests to a new pool, two answers are the
    same handle exactly when they were given for the same key: no two keys
    ever share a manager object. *)
Theorem get_managers_handles_by_key
  (keys : list string) (w : World)
  (answers : list (result ref)) (pool' : FileManagerPool) (st' : Store)
  (i j : nat) (ki kj : string) (hi hj : ref) :
  get_managers md5_hexdigest FileManagerPool_init (mkStore ∅ w) keys
  = (answers, pool', st') →
  keys !! i = Some ki → keys !! j = Some kj →
  answers !! i = Some (Ok hi) → answers !! j = Some (Ok hj) →
  ki = kj ↔ hi = hj.
Proof.
  intros Hrun Hi Hj Hai Haj. split.
  - intros <-.
    exact (get_managers_same_handle md5_hexdigest keys _ _ _ _ _
             i j ki hi hj Hrun Hi Hj Hai Haj).
  - intros <-.
    destruct (get_managers_inj_live keys _ _ _ _ _
                pool_inj_init (pool_live_init _) Hrun) as [Hinj _].
    apply (Hinj ki kj hi); by eapply get_managers_answers.
Qed.

(** X14.  [remove_manager] forgets a key without touching its object.  The
    next [get_manager] for the key builds a new object at a new reference,
    with version 0 and metadata read from the file, and leaves the disk
    alone; the removed object is still in the heap as it was, so whoever
    holds its handle goes on using a second manager of the same file.
    Removing a key that is not registered changes nothing. *)
Theorem remove_manager_then_get
  (pool : FileManagerPool) (st : Store) (key : string) :
  (∀ handle self f,
     managers pool !! key = Some handle →
     heap st !! handle = Some self →
     files (world st) !! resolve (world st) key = Some f →
     ∃ handle',
       handle' ≠ handle ∧
       get_manager md5_hexdigest (remove_manager pool key) key st
       = Ok (handle',
             mkPool (<[key := handle']> (managers pool)),
             mkStore
               (<[handle' :=
                    {| file_path := resolve (world st) key; version := 0;
                       last_modified :=
                         Some (if readable (world st)
                                    (resolve (world st) key)
                                  && encodable (f_text f)
                               then f_mtime f else clock (world st));
                       content_hash :=
                         Some (if readable (world st)
                                    (resolve (world st) key)
                                  && encodable (f_text f)
                               then md5_hexdigest
                                      (universal_newlines (f_text f))
                               else []) |}]>
                  (heap st))
               (world st)) ∧
       <[handle' :=
           {| file_path := resolve (world st) key; version := 0;
              last_modified :=
                Some (if readable (world st) (resolve (world st) key)
                         && encodable (f_text f)
                      then f_mtime f else clock (world st));
              content_hash :=
                Some (if readable (world st) (resolve (world st) key)
                         && encodable (f_text f)
                      then md5_hexdigest (universal_newlines (f_text f))
                      else []) |}]>
         (heap st) !! handle = Some self) ∧
  (managers pool !! key = None → remove_manager pool key = pool).
Proof.
  split.
  - intros handle self f Hkey Hself Hfile.
    exists (fresh (dom (heap st))).
    assert (Hne : fresh (dom (heap st)) ≠ handle).
    { intros Heq. apply (is_fresh (dom (heap st))).
      rewrite Heq. apply elem_of_dom. by eexists. }
    split; [exact Hne |]. split.
    + unfold get_manager, remove_manager. simpl.
      rewrite lookup_delete_eq.
      unfold FileManager_init, ensure_file_exists, mkdir_parent. simpl.
      rewrite Hfile. simpl. rewrite Hfile.
      rewrite (load_metadata_cases _ _ _ f) by done.
      by rewrite insert_delete_eq.
    + by rewrite lookup_insert_ne.
  - intros Hnone. unfold remove_manager. destruct pool as [m]. simpl in *.
    f_equal. by apply delete_id.
Qed.


End MoreRegistry.

(** ** The request handlers *)

Lemma string_app_cons (a : Ascii.ascii) (s t : string) :
  String a s +:+ t = String a (s +:+ t).
Proof. reflexivity. Qed.

Lemma string_length_app (s t : string) :
  String.length (s +:+ t) = (String.length s + String.length t)%nat.
Proof.
  induction s as [| a s IH]; [done |].
  rewrite string_app_cons. simpl. by rewrite IH.
Qed.

Lemma string_app_inv_tail (s t tail : string) :
  s +:+ tail = t +:+ tail → s = t.
Proof.
  revert t. induction s as [| a s IH]; intros [| b t]; try done.
  - intros H. apply (f_equal String.length) in H.
    rewrite !string_length_app in H. simpl in H. lia.
  - intros H. apply (f_equal String.length) in H.
    rewrite !string_length_app in H. simpl in H. lia.
  - rewrite !string_app_cons. intros [= -> H]. f_equal. by apply IH.
Qed.

(** X16.  Different user names never get the same file path. *)
Theorem get_user_file_path_inj (u v : string) :
  u ≠ v → App.get_user_file_path u ≠ App.get_user_file_path v.
Proof.
  intros Hne Heq. apply Hne. revert Heq.
  unfold App.get_user_file_path, App.path_join, App.USER_FILES_DIR.
  destruct (String.prefix "/" (u +:+ ".txt")) eqn:Hu,
           (String.prefix "/" (v +:+ ".txt")) eqn:Hv.
  - apply string_app_inv_tail.
  - intros H. rewrite H in Hu. by cbn in Hu.
  - intros H. rewrite <- H in Hv. by cbn in Hv.
  - intros H. do 2 apply String.app_inj in H.
    by apply string_app_inv_tail in H.
Qed.

Section MoreHandlers.

Variable md5_hexdigest : text → text.


(** A request by a user whose manager is registered, laid out by the
    state of the version gate. *)
Lemma update_content_registered username data pool st handle self :
  managers pool !! App.get_user_file_path username = Some handle →
  heap st !! handle = Some self →
  App.data_truthy data = true →
  App.update_content md5_hexdigest username (Some data) pool st =
  if match App.d_version data with
     | Some v => negb (validate_version self v)
     | None => false
     end
  then (App.Conflict (version self) (get_content self (world st)), pool, st)
  else
    if truthy (default [] (App.d_changes data)) then
      match
        call handle
          (λ self w,
             apply_changes md5_hexdigest self
               (default [] (App.d_changes data)) (App.d_version data) w) st
      with
      | None => (App.UpdateFailed, pool, st)
      | Some (st, (success, message)) =>
          if String.eqb message "version_mismatch" then
            (App.conflict_response handle st, pool, st)
          else (App.save_response handle success st, pool, st)
      end
    else
      match
        call handle
          (λ self w,
             update_full_content md5_hexdigest self
               (default [] (App.d_content data)) w) st
      with
      | None => (App.UpdateFailed, pool, st)
      | Some (st, success) =>
          (App.save_response handle success st, pool, st)
      end.
Proof.
  intros Hkey Hself Htruthy. unfold App.update_content.
  rewrite Htruthy. simpl.
  rewrite (get_manager_hit _ _ _ _ handle Hkey).
  unfold peek at 1. rewrite Hself.
  destruct (match App.d_version data with Some _ => _ | None => _ end);
    [| done].
  unfold App.conflict_response, peek. by rewrite Hself.
Qed.

(** A first request by a user is the same request made once the pool has
    built the user's manager. *)
Lemma update_content_after_get username data pool st handle pool1 st1 :
  App.data_truthy data = true →
  get_manager md5_hexdigest pool (App.get_user_file_path username) st
  = Ok (handle, pool1, st1) →
  App.update_content md5_hexdigest username (Some data) pool st
  = App.update_content md5_hexdigest username (Some data) pool1 st1.
Proof.
  intros Htruthy Hget. unfold App.update_content. rewrite Htruthy. simpl.
  destruct (get_manager_registers _ _ _ _ _ _ _ Hget) as [Hkey _].
  by rewrite Hget, (get_manager_hit _ _ _ _ handle Hkey).
Qed.



(** [get_manager] adds to the heap and to the disk, and changes nothing
    that is there. *)
Lemma get_manager_preserves pool key st handle pool1 st1 :
  get_manager md5_hexdigest pool key st = Ok (handle, pool1, st1) →
  (∀ path f, files (world st) !! path = Some f →
             files (world st1) !! path = Some f) ∧
  (∀ h self, heap st !! h = Some self → heap st1 !! h = Some self) ∧
  access (world st1) = access (world st).
Proof.
  intros Hget.
  destruct (managers pool !! key) as [h0 |] eqn:Hk.
  - rewrite (get_manager_hit _ _ _ _ h0 Hk) in Hget.
    by injection Hget as <- <- <-.
  - destruct (get_manager_miss _ _ _ _ _ _ _ Hk Hget)
      as (fm & Hinit & Hfresh & Hheap & _).
    destruct (FileManager_init_ok _ _ _ _ _ Hinit)
      as (_ & _ & _ & Haccess & _ & Hfiles).
    split; [exact Hfiles |]. split; [| exact Haccess].
    intros h self Hh. rewrite Hheap.
    rewrite lookup_insert_ne; [done | congruence].
Qed.

(** When [get_manager] raises, every file is as it was. *)
Lemma get_manager_raised pool key st e w' :
  get_manager md5_hexdigest pool key st = Raised e w' →
  files w' = files (world st).
Proof.
  unfold get_manager. destruct (managers pool !! key); [done |].
  destruct (FileManager_init _ _ _) as [[fm w1] | e1 w1] eqn:Hinit;
    [done |].
  intros [= _ <-]. by eapply FileManager_init_raised.
Qed.

(** X17.  A request whose version is not the current one of the user's
    manager is answered 409 with the current version and the current
    content, whatever else it carries, and neither the pool, nor the
    objects, nor the disk change. *)
Theorem update_content_conflict
  (username : string) (data : App.UpdateData)
  (pool : FileManagerPool) (st : Store)
  (handle : ref) (self : FileManager) (expected : Z) :
  managers pool !! App.get_user_file_path username = Some handle →
  heap st !! handle = Some self →
  App.d_version data = Some expected →
  expected ≠ version self →
  App.update_content md5_hexdigest username (Some data) pool st
  = (App.Conflict (version self) (get_content self (world st)), pool, st) ∧
  App.status (App.Conflict (version self) (get_content self (world st)))
  = 409.
Proof.
  intros Hkey Hself Hver Hne. split; [| done].
  rewrite (update_content_registered _ _ _ _ handle self) by
    (done || unfold App.data_truthy; rewrite Hver; simpl;
     by rewrite !orb_true_r).
  rewrite Hver. unfold validate_version.
  rewrite bool_decide_eq_false_2 by congruence. done.
Qed.


(** What [update_content] does once the user's manager is there: it does
    not answer 200 and leaves the store alone, or it answers 500 with at
    most the user's file emptied, or it saves. *)
Lemma update_content_outcome username data pool st handle self r pool' st' :
  managers pool !! App.get_user_file_path username = Some handle →
  heap st !! handle = Some self →
  App.data_truthy data = true →
  App.update_content md5_hexdigest username (Some data) pool st
  = (r, pool', st') →
  pool' = pool ∧
  ((∀ v info, r ≠ App.Saved v info) ∧ r ≠ App.SaveFailed ∧ st' = st ∨
   r = App.SaveFailed ∧
     (st' = st ∨
      writable (world st) (file_path self) = true ∧
      st' = mkStore (heap st)
              (set_files (world st)
                 (<[file_path self := mkFile [] (clock (world st))]>
                    (files (world st))))) ∨
   ∃ self' w' saved,
     r = App.Saved (version self + 1) (get_file_info self' w') ∧
     st' = mkStore (<[handle := self']> (heap st)) w' ∧
     version self' = version self + 1 ∧
     encodable saved = true ∧
     get_content self' w' = universal_newlines saved ∧
     if truthy (default [] (App.d_changes data))
     then patch (get_content self (world st))
            (default [] (App.d_changes data)) = Continue saved
     else saved = default [] (App.d_content data)).
Proof.
  intros Hkey Hself Htruthy.
  rewrite (update_content_registered _ _ _ _ handle self) by done.
  destruct (match App.d_version data with Some _ => _ | None => _ end).
  { intros [= <- <- <-]. split; [done |]. by left. }
  assert (Hid : ∀ w, mkStore (<[handle := self]> (heap st)) w
                     = mkStore (heap st) w).
  { intros w. by rewrite insert_id. }
  assert (Hst : mkStore (heap st) (world st) = st) by by destruct st.
  destruct (truthy (default [] (App.d_changes data))) eqn:Hchanges.
  - unfold call. rewrite Hself.
    destruct (apply_changes md5_hexdigest self _ _ _)
      as [[self' w'] [ok msg]] eqn:Happly.
    destruct (apply_changes_cases _ _ _ _ _ _ _ _ _ Happly)
      as [(-> & -> & Hgate & Hw & content' & Hpatch & Henc & -> & ->)
         | [(-> & -> & -> & Hmsg)
           | (-> & -> & -> & Hw & Hpatch & ->)]].
    + (* the patch was saved *)
      simpl. unfold App.save_response, peek. simpl.
      rewrite lookup_insert_eq.
      intros [= <- <- <-]. split; [done |]. right. right.
      eexists _, _, content'. split; [reflexivity |].
      split; [reflexivity |]. split; [done |]. split; [done |].
      split; [| done].
      unfold get_content. simpl. by rewrite read_text_written.
    + (* the patch was refused: nothing has changed *)
      rewrite Hid, Hst.
      destruct (String.eqb msg "version_mismatch").
      * unfold App.conflict_response, peek. rewrite Hself.
        intros [= <- <- <-]. split; [done |]. by left.
      * intros [= <- <- <-]. split; [done |]. right. left. by split; [| left].
    + (* the patched text could not be written *)
      rewrite Hid. simpl. intros [= <- <- <-]. split; [done |].
      right. left. split; [done |]. by right.
  - unfold call. rewrite Hself.
    destruct (update_full_content_cases md5_hexdigest self
                (default [] (App.d_content data)) (world st))
      as [(Hw & Henc & ->) | [(Hw & Henc & ->) | (Hw & ->)]].
    + unfold App.save_response, peek. simpl. rewrite lookup_insert_eq.
      intros [= <- <- <-]. split; [done |]. right. right.
      eexists _, _, _. split; [reflexivity |].
      split; [reflexivity |]. split; [done |]. split; [exact Henc |].
      split; [| done].
      unfold get_content. simpl. by rewrite read_text_written.
    + rewrite Hid. intros [= <- <- <-]. split; [done |].
      right. left. split; [done |]. by right.
    + rewrite Hid, Hst. intros [= <- <- <-]. split; [done |].
      right. left. split; [done |]. by left.
Qed.

(** The same, for any pool: first the manager is found or built. *)
Lemma update_content_walk username data pool st r pool' st' :
  App.update_content md5_hexdigest username data pool st = (r, pool', st') →
  (∀ v info, r ≠ App.Saved v info) ∧ r ≠ App.SaveFailed ∧
  (pool' = pool ∧ st' = st ∨
   (∃ handle,
      get_manager md5_hexdigest pool (App.get_user_file_path username) st
      = Ok (handle, pool', st')) ∨
   ∃ e w',
     get_manager md5_hexdigest pool (App.get_user_file_path username) st
     = Raised e w' ∧ st' = mkStore (heap st) w') ∨
  ∃ d handle st1 self,
    data = Some d ∧ App.data_truthy d = true ∧
    get_manager md5_hexdigest pool (App.get_user_file_path username) st
    = Ok (handle, pool', st1) ∧
    managers pool' !! App.get_user_file_path username = Some handle ∧
    heap st1 !! handle = Some self ∧
    App.update_content md5_hexdigest username (Some d) pool' st1
    = (r, pool', st').
Proof.
  destruct data as [d |];
    [| intros [= <- <- <-]; left; repeat (split; [done |]); by left].
  destruct (App.data_truthy d) eqn:Htruthy.
  2: { unfold App.update_content. rewrite Htruthy.
       intros [= <- <- <-]. left. repeat (split; [done |]). by left. }
  destruct (get_manager md5_hexdigest pool
              (App.get_user_file_path username) st)
    as [[[handle pool1] st1] | e w1] eqn:Hget.
  2: { unfold App.update_content. rewrite Htruthy, Hget.
       intros [= <- <- <-]. left. repeat (split; [done |]).
       right. right. by exists e, w1. }
  rewrite (update_content_after_get _ _ _ _ _ _ _ Htruthy Hget).
  destruct (get_manager_registers _ _ _ _ _ _ _ Hget) as [Hkey _].
  destruct (heap st1 !! handle) as [self |] eqn:Hself.
  - intros Hrun.
    destruct (update_content_outcome _ _ _ _ _ _ _ _ _
                Hkey Hself Htruthy Hrun) as [-> _].
    right. by exists d, handle, st1, self.
  - unfold App.update_content. rewrite Htruthy. simpl.
    rewrite (get_manager_hit _ _ _ _ handle Hkey).
    unfold peek at 1. rewrite Hself.
    intros [= <- <- <-]. left. repeat (split; [done |]).
    right. left. by exists handle.
Qed.


(** X20.  A request that is not answered 200 changes no manager object.
    Unless the answer is the 500 of a save that reported no success, it
    changes no file that was there either (it may have made the pool build
    the user's manager, and with it an empty file that was missing).  When
    a save reports no success, every file but the one of the user's manager
    is as it was, and that one is as it was or has been emptied: a file
    that can be opened is emptied before the text is found not to
    encode. *)
Theorem update_content_rejected_keeps_state
  (username : string) (data : option App.UpdateData)
  (pool : FileManagerPool) (st : Store)
  (r : App.Response) (pool' : FileManagerPool) (st' : Store) :
  App.update_content md5_hexdigest username data pool st = (r, pool', st') →
  (∀ v info, r ≠ App.Saved v info) →
  (∀ h self, heap st !! h = Some self → heap st' !! h = Some self) ∧
  (r ≠ App.SaveFailed →
   ∀ path f, files (world st) !! path = Some f →
             files (world st') !! path = Some f) ∧
  (r = App.SaveFailed →
   ∃ handle self,
     managers pool' !! App.get_user_file_path username = Some handle ∧
     heap st' !! handle = Some self ∧
     (∀ path f, path ≠ file_path self →
        files (world st) !! path = Some f →
        files (world st') !! path = Some f) ∧
     (∀ f, files (world st) !! file_path self = Some f →
        files (world st') !! file_path self = Some f ∨
        writable (world st) (file_path self) = true ∧
        f_text <$> files (world st') !! file_path self = Some [])).
Proof.
  intros Hrun Hno.
  destruct (update_content_walk _ _ _ _ _ _ _ Hrun)
    as [(_ & Hnot & [[-> ->] | [[handle Hget] | (e & w1 & Hget & ->)]])
       | (d & handle & st1 & self & -> & Htruthy & Hget & Hkey
          & Hself & Hrun1)].
  - done.
  - destruct (get_manager_preserves _ _ _ _ _ _ Hget) as (Hf & Hh & _).
    done.
  - apply get_manager_raised in Hget. simpl. rewrite Hget. done.
  - destruct (get_manager_preserves _ _ _ _ _ _ Hget)
      as (Hf & Hh & Haccess).
    destruct (update_content_outcome _ _ _ _ _ _ _ _ _
                Hkey Hself Htruthy Hrun1)
      as [_ [(_ & Hnot & ->)
            | [[-> Hleft] | (self' & w' & saved & -> & _)]]].
    + done.
    + assert (Hw : writable (world st1) (file_path self)
                   = writable (world st) (file_path self)).
      { unfold writable. by rewrite Haccess. }
      destruct Hleft as [-> | [Hwr ->]].
      * split; [exact Hh |]. split; [done |]. intros _.
        exists handle, self. repeat split; [done .. | |].
        -- intros path f _. apply Hf.
        -- intros f Hfile. left. by apply Hf.
      * split; [exact Hh |]. split; [done |]. intros _.
        exists handle, self. repeat split; [done .. | |].
        -- intros path f Hne Hfile. simpl.
           rewrite lookup_insert_ne by done. by apply Hf.
        -- intros f Hfile. right. split; [by rewrite <- Hw |].
           simpl. by rewrite lookup_insert_eq.
    + by destruct (Hno (version self + 1) (get_file_info self' w')).
Qed.

End MoreHandlers.

(** ** The further properties at concrete inputs *)

Lemma calculate_diff_operation_in_bounds_witness :
  calculate_diff (str "kitten") (str "kitchen")
  = [replace_op 3 (str "ch") 1] ∧
  (0 ≤ 3 ∧ 0 ≤ 1 ∧ 3 + 1 ≤ len (str "kitten") ∧
   3 + len (str "ch") ≤ len (str "kitchen") ∧
   len (str "kitchen") - len (str "ch") = len (str "kitten") - 1 ∧
   str "ch" = slice (str "kitchen") 3 (3 + len (str "ch")) ∧
   slice (str "kitten") 3 (3 + 1) ≠ str "ch").
Proof.
  assert (H : calculate_diff (str "kitten") (str "kitchen")
              = [replace_op 3 (str "ch") 1]) by (vm_compute; reflexivity).
  split; [exact H |].
  exact (calculate_diff_operation_in_bounds _ _ _ _ _ H).
Defined.

Lemma calculate_diff_operation_minimal_witness :
  (3 < len (str "kitten") → 3 < len (str "kitchen") →
   str "kitten" !! Z.to_nat 3 ≠ str "kitchen" !! Z.to_nat 3) ∧
  (0 < 1 → 0 < len (str "ch") →
   str "kitten" !! Z.to_nat (3 + 1 - 1)
   ≠ str "kitchen" !! Z.to_nat (3 + len (str "ch") - 1)).
Proof.
  apply (calculate_diff_operation_minimal (str "kitten") (str "kitchen")
           3 (str "ch") 1).
  vm_compute. reflexivity.
Defined.

Lemma calculate_diff_inverse_witness :
  calculate_diff (str "kitchen") (str "kitten")
  = [replace_op 3 (slice (str "kitten") 3 (3 + 1)) (len (str "ch"))].
Proof.
  apply (calculate_diff_inverse (str "kitten") (str "kitchen")).
  vm_compute. reflexivity.
Defined.

Lemma calculate_diff_append_witness :
  calculate_diff (str "abc") (str "abc" ++ str "de")
  = [replace_op (len (str "abc")) (str "de") 0] ∧
  calculate_diff (str "abc" ++ str "de") (str "abc")
  = [replace_op (len (str "abc")) [] (len (str "de"))].
Proof.
  apply (calculate_diff_append (str "abc") (str "de")). discriminate.
Defined.

Lemma apply_changes_missing_key_witness :
  apply_changes no_digest (manager_at "notes.txt" 3)
    ([replace_op 0 (str "x") 0] ++
     {| ch_type := Some "replace"%string; ch_position := Some 9;
        ch_content := None; ch_length := Some 0 |}
     :: [replace_op 3 (str "z") 0])
    (Some 3) (written "notes.txt" (str "abc"))
  = (manager_at "notes.txt" 3, written "notes.txt" (str "abc"),
     (false, "'content'"%string)).
Proof.
  destruct (apply_changes_missing_key no_digest (manager_at "notes.txt" 3)
              (written "notes.txt" (str "abc")) (Some 3)
              [replace_op 0 (str "x") 0] [replace_op 3 (str "z") 0]
              (str "abcz")) as (_ & _ & Hcontent).
  - right. reflexivity.
  - reflexivity.
  - apply Hcontent.
Defined.

Lemma apply_changes_skips_other_types_witness :
  apply_changes no_digest (manager_at "notes.txt" 3)
    [ {| ch_type := Some "insert"%string; ch_position := None;
         ch_content := None; ch_length := None |};
      replace_op 3 (str "z") 0 ]
    (Some 3) (written "notes.txt" (str "abc"))
  = apply_changes no_digest (manager_at "notes.txt" 3)
      [ replace_op 3 (str "z") 0 ]
      (Some 3) (written "notes.txt" (str "abc")).
Proof.
  apply (apply_changes_skips_other_types no_digest).
  repeat constructor; by eexists.
Defined.

Lemma apply_change_negative_length_witness :
  apply_change (str "abcdef") (replace_op 4 (str "X") (-2))
  = Continue (str "abcdXcdef") ∧
  apply_change (str "abcdef") (replace_op 1 (str "X") (-3))
  = Continue (str "aXef").
Proof.
  split.
  - destruct (apply_change_negative_length (str "abcdef") 4 (-2) (str "X"))
      as [Hdup _]; [vm_compute; intuition discriminate | reflexivity |].
    destruct Hdup as [Hdup _]; [vm_compute; discriminate |].
    exact Hdup.
  - destruct (apply_change_negative_length (str "abcdef") 1 (-3) (str "X"))
      as [_ Hwrap]; [vm_compute; intuition discriminate | reflexivity |].
    apply Hwrap. reflexivity.
Defined.



Lemma FileManager_init_keeps_content_witness :
  FileManager_init echo_digest "notes.txt" (written "notes.txt" crlf_text)
  = Ok ({| file_path := "notes.txt"; version := 0;
           last_modified := Some 1; content_hash := Some lf_text |},
        written "notes.txt" crlf_text) ∧
  (∃ self w',
     FileManager_init echo_digest "notes.txt" blank_disk = Ok (self, w') ∧
     file_path self = "notes.txt"%string ∧ version self = 0 ∧
     get_content self w' = [] ∧
     content_hash self = Some [] ∧
     files w' = <[ "notes.txt"%string := mkFile [] 1 ]> ∅ ∧
     dirs w' = ∅ ∪ ∅) ∧
  (∃ w',
     FileManager_init echo_digest "notes.txt" half_made_disk
     = Raised (OSError "notes.txt") w' ∧
     files w' = ∅ ∧
     dirs w' = ∅ ∪ {[ "data"%string ]}) ∧
  (∃ w',
     FileManager_init echo_digest "notes.txt" (read_only blank_disk)
     = Raised (OSError "notes.txt") w' ∧
     files w' = ∅ ∧
     dirs w' = ∅ ∪ ∅).
Proof.
  destruct (FileManager_init_keeps_content echo_digest "notes.txt"
              (written "notes.txt" crlf_text)) as (Hkeep & _ & _).
  destruct (FileManager_init_keeps_content echo_digest "notes.txt"
              blank_disk) as (_ & Hnew & _).
  destruct (FileManager_init_keeps_content echo_digest "notes.txt"
              half_made_disk) as (_ & _ & Hhalf).
  destruct (FileManager_init_keeps_content echo_digest "notes.txt"
              (read_only blank_disk)) as (_ & _ & Hfail).
  split; [exact (Hkeep (mkFile crlf_text 1) eq_refl) |].
  split; [exact (Hnew eq_refl eq_refl eq_refl) |].
  split; [exact (Hhalf eq_refl (or_introl eq_refl)) |].
  exact (Hfail eq_refl (or_intror eq_refl)).
Defined.


Lemma get_managers_handles_by_key_witness :
  get_managers no_digest FileManagerPool_init (mkStore ∅ blank_disk)
    ["a.txt"; "b.txt"; "a.txt"]%string
  = ([Ok 1%positive; Ok 2%positive; Ok 1%positive],
     mkPool {[ "a.txt"%string := 1%positive; "b.txt"%string := 2%positive ]},
     mkStore {[ 1%positive := manager_at "a.txt" 0;
                2%positive := manager_at "b.txt" 0 ]}
       (set_files blank_disk
          {[ "a.txt"%string := mkFile [] 1;
             "b.txt"%string := mkFile [] 1 ]})) ∧
  ("a.txt"%string = "a.txt"%string ↔ 1%positive = 1%positive) ∧
  ("a.txt"%string = "b.txt"%string ↔ 1%positive = 2%positive).
Proof.
  assert (Hrun :
    get_managers no_digest FileManagerPool_init (mkStore ∅ blank_disk)
      ["a.txt"; "b.txt"; "a.txt"]%string
    = ([Ok 1%positive; Ok 2%positive; Ok 1%positive],
       mkPool {[ "a.txt"%string := 1%positive;
                 "b.txt"%string := 2%positive ]},
       mkStore {[ 1%positive := manager_at "a.txt" 0;
                  2%positive := manager_at "b.txt" 0 ]}
         (set_files blank_disk
            {[ "a.txt"%string := mkFile [] 1;
               "b.txt"%string := mkFile [] 1 ]})))
    by (vm_compute; reflexivity).
  split; [exact Hrun |]. split.
  - exact (get_managers_handles_by_key no_digest _ _ _ _ _ 0%nat 2%nat
             _ _ _ _ Hrun eq_refl eq_refl eq_refl eq_refl).
  - exact (get_managers_handles_by_key no_digest _ _ _ _ _ 0%nat 1%nat
             _ _ _ _ Hrun eq_refl eq_refl eq_refl eq_refl).
Defined.

Lemma remove_manager_then_get_witness :
  ∃ handle',
    handle' ≠ 1%positive ∧
    get_manager no_digest (remove_manager alice_pool "alice.txt")
      "alice.txt" alice_after
    = Ok (handle',
          mkPool (<[ "alice.txt"%string := handle' ]> (managers alice_pool)),
          mkStore
            (<[ handle' := manager_at "alice.txt" 0 ]> (heap alice_after))
            (world alice_after)) ∧
    <[ handle' := manager_at "alice.txt" 0 ]> (heap alice_after)
      !! 1%positive
    = Some (manager_at "alice.txt" 1).
Proof.
  destruct (remove_manager_then_get no_digest alice_pool alice_after
              "alice.txt") as [Hagain _].
  exact (Hagain 1%positive (manager_at "alice.txt" 1)
           (mkFile (str "hi") 1) eq_refl eq_refl eq_refl).
Defined.


Lemma get_user_file_path_inj_witness :
  App.get_user_file_path "alice" ≠ App.get_user_file_path "bob".
Proof. apply get_user_file_path_inj. discriminate. Defined.

Lemma update_content_conflict_witness :
  App.update_content no_digest "alice"
    (Some (App.mkUpdateData (Some (str "mine")) None (Some 1) false))
    users_pool users_store
  = (App.Conflict 2 (str "abc"), users_pool, users_store).
Proof.
  destruct (update_content_conflict no_digest "alice"
              (App.mkUpdateData (Some (str "mine")) None (Some 1) false)
              users_pool users_store 1%positive (manager_at alice_path 2) 1
              eq_refl eq_refl eq_refl) as [Hrun _]; [discriminate |].
  exact Hrun.
Defined.



Lemma update_content_rejected_keeps_state_witness :
  App.update_content no_digest "alice"
    (Some (App.mkUpdateData (Some surrogate_text) None (Some 2) false))
    users_pool (shared_store (mkFile (str "abc") 1))
  = (App.SaveFailed, users_pool, shared_store (mkFile [] 5)) ∧
  (∀ h self,
     heap (shared_store (mkFile (str "abc") 1)) !! h = Some self →
     heap (shared_store (mkFile [] 5)) !! h = Some self) ∧
  ∃ handle self,
    managers users_pool !! App.get_user_file_path "alice" = Some handle ∧
    heap (shared_store (mkFile [] 5)) !! handle = Some self ∧
    (∀ path f, path ≠ file_path self →
       files (world (shared_store (mkFile (str "abc") 1))) !! path = Some f →
       files (world (shared_store (mkFile [] 5))) !! path = Some f) ∧
    (∀ f,
       files (world (shared_store (mkFile (str "abc") 1))) !! file_path self
       = Some f →
       files (world (shared_store (mkFile [] 5))) !! file_path self = Some f ∨
       writable (world (shared_store (mkFile (str "abc") 1)))
         (file_path self) = true ∧
       f_text <$> files (world (shared_store (mkFile [] 5))) !! file_path self
       = Some []).
Proof.
  assert (Hrun :
    App.update_content no_digest "alice"
      (Some (App.mkUpdateData (Some surrogate_text) None (Some 2) false))
      users_pool (shared_store (mkFile (str "abc") 1))
    = (App.SaveFailed, users_pool, shared_store (mkFile [] 5)))
    by (vm_compute; reflexivity).
  destruct (update_content_rejected_keeps_state no_digest "alice" _ _ _
              _ _ _ Hrun) as (Hobjects & _ & Hfailed);
    [intros v info; discriminate |].
  split; [exact Hrun |]. split; [exact Hobjects |].
  exact (Hfailed eq_refl).
Defined.
